(** * node-red-contrib-dxl: the DXL client configuration node

    A shallow embedding of [src/nodes/dxl-client.js]: the coordinator that
    shares one DXL fabric client between the flow nodes which use it.

    The node object is a record of its three flags, its table of user nodes
    and the listeners it has attached to the underlying client.  Every
    method is a computation in a small state-and-trace monad: it threads
    the node and appends, in program order, the calls the JavaScript makes
    on objects that are not the node itself (the underlying client, the
    status method of a user node, the node's log, a [done] continuation).

    What is outside the file [dxl-client.js] is not modelled but taken as
    input:
    - the underlying client emits ['connect'], ['reconnect'] and ['close']
      on its own schedule, never synchronously from inside one of its own
      methods ([connect], [disconnect], [destroy] return before any event is
      emitted); an emission is one input of the transition system;
    - the [connected] property of the underlying client, read by
      [unregisterUserNode], is an argument of that operation;
    - calls on the client, status methods and continuations do not throw.

    Keys of [_users] are node identifiers; JavaScript's two special
    property names [__proto__] and [hasOwnProperty] are not node
    identifiers.  The enumeration order of [for (id in _users)] is not
    modelled: a broadcast visits the entries in the order of
    [map_to_list], and statements about a broadcast are independent of
    that order. *)

From stdpp Require Import gmap strings list fin_maps.

(** ** Configuration values *)

(** A JavaScript value as [convertValueToNumber] tells values apart by
    [typeof]: undefined, a string, a number, or anything else (known by an
    identity).  [Num] is the type of JavaScript numbers. *)
Inductive JsValue (Num : Type) :=
| JsUndefined
| JsString (s : string)
| JsNumber (n : Num)
| JsOther (ident : nat).

Arguments JsUndefined {Num}.
Arguments JsString {Num} s.
Arguments JsNumber {Num} n.
Arguments JsOther {Num} ident.

(** [convertValueToNumber], lines 17-24.  [Number] is JavaScript's
    conversion of a string to a number; it is a parameter. *)
Definition convertValueToNumber {Num} (Number : string → Num)
    (value defaultValue : JsValue Num) : JsValue Num :=
  match value with
  | JsUndefined => defaultValue
  | JsString s => JsNumber (Number s)
  | _ => value
  end.

(** The two fields the constructor sets on the client configuration,
    lines 43-47, from [nodeConfig.keepalive] and
    [nodeConfig.reconnectdelay].  [lit] reads a number literal. *)
Record ClientConfig (Num : Type) := {
  keepAliveInterval : JsValue Num;
  reconnectDelay : JsValue Num
}.

Arguments keepAliveInterval {Num} _.
Arguments reconnectDelay {Num} _.

Definition clientConfig {Num} (Number : string → Num) (lit : Z → Num)
    (keepalive reconnectdelay : JsValue Num) : ClientConfig Num :=
  {| keepAliveInterval :=
       convertValueToNumber Number keepalive (JsNumber (lit 1800%Z));
     reconnectDelay :=
       convertValueToNumber Number reconnectdelay (JsNumber (lit 1%Z)) |}.

(** ** Objects the node talks to *)

(** The argument of a user node's [status] method. *)
Record StatusTuple := { fill : string; shape : string; text : string }.

Definition status_connected : StatusTuple :=
  {| fill := "green"; shape := "dot";
     text := "node-red:common.status.connected" |}.
Definition status_connecting : StatusTuple :=
  {| fill := "yellow"; shape := "ring";
     text := "node-red:common.status.connecting" |}.
Definition status_disconnected : StatusTuple :=
  {| fill := "red"; shape := "ring";
     text := "node-red:common.status.disconnected" |}.

(** A [done] continuation or a message callback, known by its identity. *)
Definition Callback := nat.

(** A user node: its [id] and (the identity of) its [status] method.  Two
    different node objects may carry the same [id]. *)
Record UserNode := { id : string; status : nat }.

(** Events of the underlying client the node listens to. *)
Inductive ClientEvent := EvConnect | EvReconnect | EvClose.

(** The listeners the node attaches to the underlying client: the three
    closures of [_connect], and the one-shot closure of the node's close
    handler, which only calls [done]. *)
Inductive Listener :=
| OnConnect
| OnReconnect
| OnClose
| OnceClose (done : Callback).

Definition listens (ev : ClientEvent) (l : Listener) : bool :=
  match ev, l with
  | EvConnect, OnConnect => true
  | EvReconnect, OnReconnect => true
  | EvClose, OnClose => true
  | EvClose, OnceClose _ => true
  | _, _ => false
  end.

Definition is_once (l : Listener) : bool :=
  match l with OnceClose _ => true | _ => false end.

(** The pass-through methods (the arguments are opaque to the node). *)
Inductive FacadeCall :=
| AddEventCallback (topic : string) (eventCallback : Callback)
| RemoveEventCallback (topic : string) (eventCallback : Callback)
| AsyncRequest (request : nat) (responseCallback : option Callback)
| SendEvent (event : nat)
| SendResponse (response : nat)
| RegisterServiceAsync (serviceType : string)
                       (callbacksByTopic : list (string * Callback))
| UnregisterServiceAsync (serviceRegInfo : nat).

(** One call leaving the node. *)
Inductive Effect :=
| ClientConnect
| ClientSetMaxListeners (n : nat)
| ClientOn (l : Listener)
| ClientDisconnect (callback : option Callback)
| ClientDestroy
| ClientCall (c : FacadeCall)
| UserStatus (u : UserNode) (st : StatusTuple)
| NodeLog (msg : string)
| Call (done : Callback).

Global Instance StatusTuple_eq_dec : EqDecision StatusTuple.
Proof. solve_decision. Defined.
Global Instance UserNode_eq_dec : EqDecision UserNode.
Proof. solve_decision. Defined.
Global Instance ClientEvent_eq_dec : EqDecision ClientEvent.
Proof. solve_decision. Defined.
Global Instance Listener_eq_dec : EqDecision Listener.
Proof. solve_decision. Defined.
Global Instance FacadeCall_eq_dec : EqDecision FacadeCall.
Proof. solve_decision. Defined.
Global Instance Effect_eq_dec : EqDecision Effect.
Proof. solve_decision. Defined.

(** ** The node *)

Record DxlClientNode := {
  connected : bool;
  _connecting : bool;
  _closing : bool;
  _users : gmap string UserNode;
  (** listeners attached to [_client], oldest first *)
  _listeners : list Listener
}.

(** The node as the constructor leaves it. *)
Definition init : DxlClientNode :=
  {| connected := false; _connecting := false; _closing := false;
     _users := ∅; _listeners := [] |}.

(** ** The monad of node methods *)

Definition M (A : Type) : Type :=
  DxlClientNode → A * DxlClientNode * list Effect.

Definition ret {A} (a : A) : M A := λ node, (a, node, []).

Definition bind {A B} (m : M A) (k : A → M B) : M B :=
  λ node,
    let r := m node in
    let r' := k r.1.1 r.1.2 in
    (r'.1.1, r'.1.2, r.2 ++ r'.2).

Declare Scope node_scope.
Delimit Scope node_scope with node.
Notation "x <- m ;; k" := (bind m (λ x, k))
  (at level 100, m at next level, right associativity) : node_scope.
Notation "m ;; k" := (bind m (λ _, k))
  (at level 100, right associativity) : node_scope.
Local Open Scope node_scope.

Definition get : M DxlClientNode := λ node, (node, node, []).
Definition emit (e : Effect) : M unit := λ node, (tt, node, [e]).
Definition skip : M unit := ret tt.

Definition set_connected (b : bool) : M unit :=
  λ node, (tt, {| connected := b; _connecting := _connecting node;
                  _closing := _closing node; _users := _users node;
                  _listeners := _listeners node |}, []).
Definition set_connecting (b : bool) : M unit :=
  λ node, (tt, {| connected := connected node; _connecting := b;
                  _closing := _closing node; _users := _users node;
                  _listeners := _listeners node |}, []).
Definition set_closing (b : bool) : M unit :=
  λ node, (tt, {| connected := connected node;
                  _connecting := _connecting node;
                  _closing := b; _users := _users node;
                  _listeners := _listeners node |}, []).
Definition set_users (f : gmap string UserNode → gmap string UserNode)
  : M unit :=
  λ node, (tt, {| connected := connected node;
                  _connecting := _connecting node;
                  _closing := _closing node; _users := f (_users node);
                  _listeners := _listeners node |}, []).
Definition set_listeners (f : list Listener → list Listener) : M unit :=
  λ node, (tt, {| connected := connected node;
                  _connecting := _connecting node;
                  _closing := _closing node; _users := _users node;
                  _listeners := f (_listeners node) |}, []).

Fixpoint for_each {A} (l : list A) (body : A → M unit) : M unit :=
  match l with
  | [] => skip
  | a :: l' => body a ;; for_each l' body
  end.

(** The node after a computation, and the calls the computation made. *)
Definition after {A} (m : M A) (node : DxlClientNode) : DxlClientNode :=
  (m node).1.2.
Definition calls {A} (m : M A) (node : DxlClientNode) : list Effect :=
  (m node).2.

(** ** Listeners on the underlying client *)

(** [_client.on(...)] and [_client.once(...)]: the listener is attached
    after those already there. *)
Definition client_on (l : Listener) : M unit :=
  emit (ClientOn l) ;; set_listeners (λ ls, ls ++ [l]).

(** [for (var id in node._users) if (hasOwnProperty) node._users[id].status(st)] *)
Definition broadcast (st : StatusTuple) : M unit :=
  node <- get ;;
  for_each (map_to_list (_users node)) (λ entry, emit (UserStatus entry.2 st)).

(** The ['connect'] listener, lines 98-110. *)
Definition on_connect : M unit :=
  set_connecting false ;;
  set_connected true ;;
  broadcast status_connected.

(** The ['reconnect'] listener, lines 111-121. *)
Definition on_reconnect : M unit :=
  broadcast status_connecting.

(** The ['close'] listener, lines 123-138. *)
Definition on_close : M unit :=
  node <- get ;;
  if connected node then
    set_connected false ;;
    broadcast status_disconnected
  else if _connecting node then
    emit (NodeLog "Connect failed")
  else skip.

Definition run_listener (l : Listener) : M unit :=
  match l with
  | OnConnect => on_connect
  | OnReconnect => on_reconnect
  | OnClose => on_close
  | OnceClose done => emit (Call done)
  end.

(** The underlying client emits [ev]: the listeners attached for [ev] run in
    the order they were attached; a one-shot listener is detached when it
    fires.  No listener of the node attaches or detaches a listener, so
    the one-shot ones are detached up front. *)
Definition client_emits (ev : ClientEvent) : M unit :=
  node <- get ;;
  set_listeners (filter (λ l, ¬ (listens ev l && is_once l))) ;;
  for_each (filter (λ l, listens ev l) (_listeners node)) run_listener.

(** ** Methods of the node *)

(** [_connect], lines 92-140. *)
Definition _connect : M unit :=
  node <- get ;;
  if negb (connected node) && negb (_connecting node) then
    set_connecting true ;;
    emit ClientConnect ;;
    emit (ClientSetMaxListeners 0) ;;
    client_on OnConnect ;;
    client_on OnReconnect ;;
    client_on OnClose
  else skip.

(** [registerUserNode], lines 151-156. *)
Definition registerUserNode (userNode : UserNode) : M unit :=
  set_users (insert (id userNode) userNode) ;;
  node <- get ;;
  if size (_users node) =? 1 then _connect else skip.

(** [unregisterUserNode], lines 166-180.  [client_connected] is the value
    of [node._client.connected] when it is read. *)
Definition unregisterUserNode (client_connected : bool)
    (userNode : UserNode) (done : Callback) : M unit :=
  set_users (delete (id userNode)) ;;
  node <- get ;;
  if _closing node then emit (Call done)
  else if size (_users node) =? 0 then
    if client_connected then emit (ClientDisconnect (Some done))
    else
      emit (ClientDisconnect None) ;;
      emit (Call done)
  else emit (Call done).

(** The node's own ['close'] handler, lines 290-299. *)
Definition node_close (done : Callback) : M unit :=
  set_closing true ;;
  node <- get ;;
  (if connected node then client_on (OnceClose done) else skip) ;;
  emit ClientDestroy ;;
  node' <- get ;;
  if negb (connected node') then emit (Call done) else skip.

(** The pass-through methods, lines 193-288: each is one call on the
    client, [removeEventCallback] only while the node is not closing.  The
    descriptor [registerServiceAsync] builds, hands to the client and
    returns is known by the two arguments it is built from. *)
Definition facade (c : FacadeCall) : M unit :=
  match c with
  | RemoveEventCallback _ _ =>
      node <- get ;;
      if negb (_closing node) then emit (ClientCall c) else skip
  | _ => emit (ClientCall c)
  end.

(** ** The node as a transition system *)

Inductive Input :=
| Register (userNode : UserNode)
| Unregister (client_connected : bool) (userNode : UserNode)
             (done : Callback)
| Teardown (done : Callback)
| Emits (ev : ClientEvent)
| Facade (c : FacadeCall).

Definition step (i : Input) : M unit :=
  match i with
  | Register u => registerUserNode u
  | Unregister cc u done => unregisterUserNode cc u done
  | Teardown done => node_close done
  | Emits ev => client_emits ev
  | Facade c => facade c
  end.

Global Instance Input_eq_dec : EqDecision Input.
Proof. solve_decision. Defined.

Definition run (inputs : list Input) : M unit := for_each inputs step.

Definition reachable (node : DxlClientNode) : Prop :=
  ∃ inputs, node = after (run inputs) init.

(** ** Notions used to state and prove the properties *)

(** The calls of one broadcast of [st] over the table [users]. *)
Definition statuses (st : StatusTuple) (users : gmap string UserNode)
  : list Effect :=
  (λ entry, UserStatus entry.2 st) <$> map_to_list users.

(** The node once a ['connect'] listener has run. *)
Definition connected_node (node : DxlClientNode) : DxlClientNode :=
  after (set_connecting false ;; set_connected true) node.

(** The node once a ['close'] listener has found it connected. *)
Definition disconnected_node (node : DxlClientNode) : DxlClientNode :=
  after (set_connected false) node.

(** What a ['close'] listener does once the node is not connected. *)
Definition idle_close_calls (connecting : bool) (l : Listener)
  : list Effect :=
  match l with
  | OnceClose done => [Call done]
  | _ => if connecting then [NodeLog "Connect failed"] else []
  end.

(** The listeners an emission of [ev] runs, oldest first. *)
Definition attached (ev : ClientEvent) (node : DxlClientNode)
  : list Listener :=
  filter (λ l, listens ev l) (_listeners node).

(** The node with the one-shot listeners for [ev] detached. *)
Definition detached (ev : ClientEvent) (node : DxlClientNode)
  : DxlClientNode :=
  after (set_listeners (filter (λ l, ¬ (listens ev l && is_once l)))) node.

(** The continuations of the one-shot close listeners among [ls]. *)
Definition pending (ls : list Listener) : list Callback :=
  omap (λ l, match l with OnceClose done => Some done | _ => None end) ls.

(** [registerUserNode u] passes both guards: the table has one entry once
    [u] is stored, and the node is neither connected nor connecting. *)
Definition connects (u : UserNode) (node : DxlClientNode) : bool :=
  (size (<[id u := u]> (_users node)) =? 1)
  && negb (connected node) && negb (_connecting node).

(** The calls of a [_connect] that passes its guard. *)
Definition connect_calls : list Effect :=
  [ClientConnect; ClientSetMaxListeners 0; ClientOn OnConnect;
   ClientOn OnReconnect; ClientOn OnClose].

(** Only a listener, a log line or a continuation is called back by an
    emission: never a method of the client. *)
Definition is_callback (e : Effect) : Prop :=
  match e with
  | UserStatus _ _ | NodeLog _ | Call _ => True
  | _ => False
  end.

(** The invariant of the transition system. *)
Record Inv (node : DxlClientNode) : Prop := {
  (** connected and connecting exclude each other *)
  inv_exclusive : connected node && _connecting node = false;
  (** a one-shot close listener is pending only while connected *)
  inv_once :
    connected node = false → Forall (λ l, ¬ is_once l) (_listeners node);
  (** once [_connect] has passed its guard its listeners are attached *)
  inv_attached :
    connected node || _connecting node = true → OnConnect ∈ _listeners node;
  inv_paired : OnConnect ∈ _listeners node → OnClose ∈ _listeners node
}.

(** The input unregisters a node with id [k]. *)
Definition unregisters (k : string) (i : Input) : bool :=
  match i with
  | Unregister _ w _ => bool_decide (id w = k)
  | _ => false
  end.

(** Sample user nodes, with identifiers as Node-RED generates them. *)
Definition alice : UserNode := {| id := "a1b2c3d4.e5f6a7"; status := 1 |}.
Definition bob : UserNode := {| id := "0f9e8d7c.6b5a49"; status := 2 |}.

(** Every entry of the table is stored under the id of its node. *)
Definition keyed (node : DxlClientNode) : Prop :=
  ∀ k u, _users node !! k = Some u → id u = k.

(** The input registers a node with id [k]. *)
Definition registers (k : string) (i : Input) : bool :=
  match i with
  | Register w => bool_decide (id w = k)
  | _ => false
  end.

(** The step is a registration that passes both guards of [_connect]. *)
Definition starts_connect (i : Input) (node : DxlClientNode) : bool :=
  match i with
  | Register u => connects u node
  | _ => false
  end.

(** How many times a trace calls the client's [connect]. *)
Definition connect_count (t : list Effect) : nat :=
  length (filter (λ e, e = ClientConnect) t).

(** The value has one of the types the constructor documents for its
    configuration fields, or is left out. *)
Definition documented {Num} (v : JsValue Num) : bool :=
  match v with JsOther _ => false | _ => true end.

Definition is_number {Num} (v : JsValue Num) : bool :=
  match v with JsNumber _ => true | _ => false end.

(** ** Reading off a computation *)

Lemma bind_eq {A B} (m : M A) (k : A → M B) node :
  bind m k node =
    let '(a, node1, t1) := m node in
    let '(b, node2, t2) := k a node1 in
    (b, node2, t1 ++ t2).
Proof.
  unfold bind. destruct (m node) as [[a node1] t1]. simpl.
  destruct (k a node1) as [[b node2] t2]. reflexivity.
Qed.

Lemma for_each_emit {A} (f : A → Effect) (l : list A) node :
  for_each l (λ a, emit (f a)) node = (tt, node, f <$> l).
Proof.
  induction l as [|a l IH]; [reflexivity|].
  cbn [for_each]. rewrite bind_eq.
  change (emit (f a) node) with (tt, node, [f a]). cbv beta iota.
  rewrite IH. reflexivity.
Qed.

Lemma broadcast_eq st node :
  broadcast st node = (tt, node, statuses st (_users node)).
Proof.
  unfold broadcast, bind, get. simpl. rewrite for_each_emit. reflexivity.
Qed.

Lemma elem_of_statuses e st (users : gmap string UserNode) :
  e ∈ statuses st users ↔ ∃ i u, users !! i = Some u ∧ e = UserStatus u st.
Proof.
  unfold statuses. rewrite list_elem_of_fmap. split.
  - intros [[i u] [-> Hin]]. apply elem_of_map_to_list in Hin. eauto.
  - intros (i & u & Hlk & ->). exists (i, u). split; [reflexivity|].
    by apply elem_of_map_to_list.
Qed.

(** Symbolic execution of a method body: one [bind] at a time. *)
Ltac node_step :=
  first
    [ rewrite bind_eq
    | rewrite broadcast_eq
    | progress unfold get, emit, skip, ret, set_connected, set_connecting,
        set_closing, set_users, set_listeners
    | progress cbn [connected _connecting _closing _users _listeners
                    fst snd negb andb orb app] ].
Ltac node_run := repeat node_step.

Lemma on_connect_eq node :
  on_connect node =
    (tt, {| connected := true; _connecting := false;
            _closing := _closing node; _users := _users node;
            _listeners := _listeners node |},
     statuses status_connected (_users node)).
Proof. unfold on_connect. node_run. reflexivity. Qed.

Lemma on_reconnect_eq node :
  on_reconnect node = (tt, node, statuses status_connecting (_users node)).
Proof. unfold on_reconnect. node_run. reflexivity. Qed.

Lemma on_close_eq node :
  on_close node =
    if connected node then
      (tt, {| connected := false; _connecting := _connecting node;
              _closing := _closing node; _users := _users node;
              _listeners := _listeners node |},
       statuses status_disconnected (_users node))
    else if _connecting node then (tt, node, [NodeLog "Connect failed"])
    else (tt, node, []).
Proof.
  unfold on_close. node_run.
  destruct (connected node); [|destruct (_connecting node)];
    node_run; reflexivity.
Qed.

Lemma _connect_eq node :
  _connect node =
    if negb (connected node) && negb (_connecting node) then
      (tt, {| connected := connected node; _connecting := true;
              _closing := _closing node; _users := _users node;
              _listeners :=
                _listeners node ++ [OnConnect; OnReconnect; OnClose] |},
       [ClientConnect; ClientSetMaxListeners 0; ClientOn OnConnect;
        ClientOn OnReconnect; ClientOn OnClose])
    else (tt, node, []).
Proof.
  unfold _connect, client_on. node_run.
  destruct (negb (connected node) && negb (_connecting node));
    node_run; [|reflexivity].
  rewrite <- !(assoc_L (++)). reflexivity.
Qed.

Lemma registerUserNode_eq u node :
  registerUserNode u node =
    let node1 := after (set_users (insert (id u) u)) node in
    if size (_users node1) =? 1 then _connect node1 else (tt, node1, []).
Proof.
  unfold registerUserNode. node_run. unfold after. node_run.
  destruct (size _ =? 1); [|reflexivity].
  destruct (_connect _) as [[[] node2] t]. reflexivity.
Qed.

Lemma unregisterUserNode_eq cc u done node :
  unregisterUserNode cc u done node =
    let node1 := after (set_users (delete (id u))) node in
    (tt, node1,
     if _closing node then [Call done]
     else if size (_users node1) =? 0 then
       if cc then [ClientDisconnect (Some done)]
       else [ClientDisconnect None; Call done]
     else [Call done]).
Proof.
  unfold unregisterUserNode. node_run. unfold after. node_run.
  destruct (_closing node); [reflexivity|].
  destruct (size _ =? 0); [|reflexivity].
  destruct cc; node_run; reflexivity.
Qed.

Lemma node_close_eq done node :
  node_close done node =
    if connected node then
      (tt, {| connected := true; _connecting := _connecting node;
              _closing := true; _users := _users node;
              _listeners := _listeners node ++ [OnceClose done] |},
       [ClientOn (OnceClose done); ClientDestroy])
    else
      (tt, {| connected := false; _connecting := _connecting node;
              _closing := true; _users := _users node;
              _listeners := _listeners node |},
       [ClientDestroy; Call done]).
Proof.
  unfold node_close, client_on. node_run.
  destruct (connected node) eqn:Hc; node_run; reflexivity.
Qed.

Lemma facade_eq c node :
  facade c node =
    (tt, node,
     match c with
     | RemoveEventCallback _ _ =>
         if _closing node then [] else [ClientCall c]
     | _ => [ClientCall c]
     end).
Proof.
  destruct c; try reflexivity.
  unfold facade. node_run. destruct (_closing node); reflexivity.
Qed.

(** ** Running the listeners of one emission *)

Lemma for_each_cons {A} (a : A) l body node :
  for_each (a :: l) body node = bind (body a) (λ _, for_each l body) node.
Proof. reflexivity. Qed.

Lemma for_each_app {A} (l1 l2 : list A) body node :
  for_each (l1 ++ l2) body node =
    bind (for_each l1 body) (λ _, for_each l2 body) node.
Proof.
  revert node. induction l1 as [|a l1 IH]; intros node.
  - simpl. rewrite bind_eq. unfold skip, ret.
    destruct (for_each l2 body node) as [[[] n] t]. reflexivity.
  - rewrite <- app_comm_cons.
    repeat (rewrite for_each_cons || rewrite bind_eq).
    destruct (body a node) as [[[] n1] t1].
    rewrite IH, !bind_eq.
    destruct (for_each l1 body n1) as [[[] n2] t2].
    destruct (for_each l2 body n2) as [[[] n3] t3].
    by rewrite (assoc_L (++)).
Qed.

Lemma run_connect_listeners ls node :
  Forall (λ l, l = OnConnect) ls →
  for_each ls run_listener node =
    (tt, match ls with [] => node | _ => connected_node node end,
     mjoin ((λ _, statuses status_connected (_users node)) <$> ls)).
Proof.
  intros Hls. revert node. induction Hls as [|l ls -> _ IH]; intros node.
  - reflexivity.
  - rewrite for_each_cons, bind_eq. cbn [run_listener].
    rewrite on_connect_eq, IH. destruct ls; reflexivity.
Qed.

Lemma run_reconnect_listeners ls node :
  Forall (λ l, l = OnReconnect) ls →
  for_each ls run_listener node =
    (tt, node, mjoin ((λ _, statuses status_connecting (_users node)) <$> ls)).
Proof.
  intros Hls. revert node. induction Hls as [|l ls -> _ IH]; intros node.
  - reflexivity.
  - rewrite for_each_cons, bind_eq. cbn [run_listener].
    rewrite on_reconnect_eq, IH. reflexivity.
Qed.

Lemma run_close_listeners_idle ls node :
  connected node = false →
  Forall (λ l, listens EvClose l) ls →
  for_each ls run_listener node =
    (tt, node, ls ≫= idle_close_calls (_connecting node)).
Proof.
  intros Hc Hls. induction Hls as [|l ls Hl _ IH]; [reflexivity|].
  rewrite for_each_cons, bind_eq.
  destruct l; try done; cbn [run_listener].
  - rewrite on_close_eq, Hc.
    destruct (_connecting node) eqn:Hcg; rewrite IH, ?Hcg; reflexivity.
  - unfold emit at 1. rewrite IH. reflexivity.
Qed.

Lemma run_close_listeners_connected pre post node :
  connected node = true →
  Forall (λ l, is_once l) pre →
  Forall (λ l, listens EvClose l) post →
  for_each (pre ++ OnClose :: post) run_listener node =
    (tt, disconnected_node node,
     (pre ≫= idle_close_calls false)
       ++ statuses status_disconnected (_users node)
       ++ (post ≫= idle_close_calls (_connecting node))).
Proof.
  intros Hc Hpre Hpost. induction Hpre as [|l pre Hl _ IH].
  - cbn [app]. rewrite for_each_cons, bind_eq. cbn [run_listener].
    rewrite on_close_eq, Hc.
    rewrite (run_close_listeners_idle post); [reflexivity|reflexivity|done].
  - destruct l; try done.
    rewrite <- app_comm_cons, for_each_cons, bind_eq. cbn [run_listener].
    unfold emit at 1. rewrite IH. reflexivity.
Qed.

(** ** One emission of the underlying client *)

Lemma client_emits_eq ev node :
  client_emits ev node =
    for_each (attached ev node) run_listener (detached ev node).
Proof.
  unfold client_emits, attached, detached, after. node_run.
  destruct (for_each _ _ _) as [[[] n] t]. reflexivity.
Qed.

Lemma attached_listens ev node :
  Forall (λ l, listens ev l) (attached ev node).
Proof.
  apply Forall_forall. intros l Hl.
  by apply list_elem_of_filter in Hl as [Hl _].
Qed.

Lemma elem_of_attached ev node l :
  l ∈ attached ev node ↔ listens ev l ∧ l ∈ _listeners node.
Proof. unfold attached. by rewrite list_elem_of_filter. Qed.

Lemma filter_id {A} (P : A → Prop) `{∀ x, Decision (P x)} (l : list A) :
  Forall P l → filter P l = l.
Proof.
  induction 1 as [|x l Hx _ IH]; [reflexivity|].
  by rewrite filter_cons_True, IH.
Qed.

Lemma detached_id ev node :
  ev ≠ EvClose → detached ev node = node.
Proof.
  intros Hev. unfold detached, after, set_listeners. cbn [fst snd].
  rewrite filter_id; [by destruct node|].
  apply Forall_forall. intros l _. destruct ev, l; naive_solver.
Qed.

Lemma detached_close_listeners node :
  _listeners (detached EvClose node)
  = filter (λ l, ¬ is_once l) (_listeners node).
Proof.
  unfold detached, after, set_listeners. cbn [fst snd _listeners].
  apply list_filter_iff. intros l. destruct l; naive_solver.
Qed.

Lemma client_emits_connect node :
  client_emits EvConnect node =
    (tt,
     match attached EvConnect node with
     | [] => node
     | _ => connected_node node
     end,
     mjoin ((λ _, statuses status_connected (_users node))
              <$> attached EvConnect node)).
Proof.
  rewrite client_emits_eq, detached_id by done.
  apply run_connect_listeners.
  eapply Forall_impl; [apply attached_listens|]. by intros [].
Qed.

Lemma client_emits_reconnect node :
  client_emits EvReconnect node =
    (tt, node,
     mjoin ((λ _, statuses status_connecting (_users node))
              <$> attached EvReconnect node)).
Proof.
  rewrite client_emits_eq, detached_id by done.
  apply run_reconnect_listeners.
  eapply Forall_impl; [apply attached_listens|]. by intros [].
Qed.

Lemma client_emits_close_idle node :
  connected node = false →
  client_emits EvClose node =
    (tt, detached EvClose node,
     attached EvClose node ≫= idle_close_calls (_connecting node)).
Proof.
  intros Hc. rewrite client_emits_eq.
  rewrite run_close_listeners_idle; [reflexivity|exact Hc|].
  apply attached_listens.
Qed.

Lemma client_emits_close_connected node :
  connected node = true →
  OnClose ∈ _listeners node →
  ∃ pre post,
    attached EvClose node = pre ++ OnClose :: post ∧
    Forall (λ l, is_once l) pre ∧
    client_emits EvClose node =
      (tt, disconnected_node (detached EvClose node),
       (pre ≫= idle_close_calls false)
         ++ statuses status_disconnected (_users node)
         ++ (post ≫= idle_close_calls (_connecting node))).
Proof.
  intros Hc Hin.
  assert (OnClose ∈ attached EvClose node) as Hat
    by (by apply elem_of_attached).
  apply list_elem_of_split_l in Hat as (pre & post & Heq & Hpre).
  pose proof (attached_listens EvClose node) as Hall.
  rewrite Heq in Hall. apply Forall_app in Hall as [Hall1 Hall2].
  apply Forall_cons in Hall2 as [_ Hall2].
  assert (Forall (λ l, is_once l) pre) as Honce.
  { apply Forall_forall. intros l Hl.
    rewrite Forall_forall in Hall1. specialize (Hall1 l Hl).
    destruct l; try done. }
  exists pre, post. split_and!; [done..|].
  rewrite client_emits_eq, Heq.
  by rewrite run_close_listeners_connected.
Qed.

(** ** Runs of the transition system *)

Lemma after_run_cons i inputs node :
  after (run (i :: inputs)) node = after (run inputs) (after (step i) node).
Proof. reflexivity. Qed.

Lemma calls_run_cons i inputs node :
  calls (run (i :: inputs)) node
  = calls (step i) node ++ calls (run inputs) (after (step i) node).
Proof. reflexivity. Qed.

Lemma after_run_app inputs1 inputs2 node :
  after (run (inputs1 ++ inputs2)) node
  = after (run inputs2) (after (run inputs1) node).
Proof. unfold after, run. rewrite for_each_app. reflexivity. Qed.

Lemma calls_run_app inputs1 inputs2 node :
  calls (run (inputs1 ++ inputs2)) node
  = calls (run inputs1) node
      ++ calls (run inputs2) (after (run inputs1) node).
Proof. unfold calls, after, run. rewrite for_each_app. reflexivity. Qed.

Lemma reachable_init : reachable init.
Proof. by exists []. Qed.

Lemma reachable_step i node :
  reachable node → reachable (after (step i) node).
Proof.
  intros [inputs ->]. exists (inputs ++ [i]).
  rewrite after_run_app. reflexivity.
Qed.

Lemma reachable_run inputs node :
  reachable node → reachable (after (run inputs) node).
Proof.
  revert node. induction inputs as [|i inputs IH]; intros node Hr; [done|].
  rewrite after_run_cons. by apply IH, reachable_step.
Qed.

(** ** What holds of every reachable node *)

Lemma Inv_init : Inv init.
Proof.
  split; cbn; [done | by constructor | done | by intros ?%elem_of_nil].
Qed.

Lemma Inv_users f node : Inv node → Inv (after (set_users f) node).
Proof. intros [H1 H2 H3 H4]. by split. Qed.

Lemma Inv__connect node : Inv node → Inv (after _connect node).
Proof.
  intros [H1 H2 H3 H4]. unfold after. rewrite _connect_eq.
  destruct node as [c cg cl us ls]. cbn in *.
  destruct c, cg; cbn; try (by split).
  split; cbn; try done.
  - intros _. apply Forall_app. split; [by apply H2|].
    repeat constructor; cbn; tauto.
  - intros _. set_solver.
  - intros _. set_solver.
Qed.

Lemma Inv_register u node : Inv node → Inv (after (registerUserNode u) node).
Proof.
  intros HI. unfold after at 1. rewrite registerUserNode_eq. cbv zeta.
  destruct (size _ =? 1).
  - by apply Inv__connect, Inv_users.
  - by apply Inv_users.
Qed.

Lemma Inv_unregister cc u done node :
  Inv node → Inv (after (unregisterUserNode cc u done) node).
Proof.
  intros HI. unfold after at 1. rewrite unregisterUserNode_eq.
  by apply Inv_users.
Qed.

Lemma Inv_node_close done node : Inv node → Inv (after (node_close done) node).
Proof.
  intros [H1 H2 H3 H4]. unfold after. rewrite node_close_eq.
  destruct node as [c cg cl us ls]. cbn in *.
  destruct c; cbn; split; cbn in *; try done.
  - intros _. specialize (H3 eq_refl). set_solver.
  - intros Hin. apply elem_of_app. left. apply H4.
    apply elem_of_app in Hin. destruct Hin as [Hin|Hin]; [done|].
    apply list_elem_of_singleton in Hin. discriminate.
Qed.

Lemma Inv_emits ev node : Inv node → Inv (after (client_emits ev) node).
Proof.
  intros HI. destruct ev.
  - unfold after. rewrite client_emits_connect. cbn [fst snd].
    destruct (attached EvConnect node) as [|l ls'] eqn:Hat; [done|].
    assert (OnConnect ∈ _listeners node) as Hin.
    { assert (l ∈ attached EvConnect node) as Hl by (rewrite Hat; left).
      apply elem_of_attached in Hl as [Hl ?]. by destruct l. }
    destruct HI as [H1 H2 H3 H4]. by split.
  - unfold after. by rewrite client_emits_reconnect.
  - destruct HI as [H1 H2 H3 H4].
    destruct (connected node) eqn:Hc.
    + assert (OnClose ∈ _listeners node) as Hin by (by apply H4, H3).
      destruct (client_emits_close_connected node Hc Hin)
        as (pre & post & _ & _ & Heq).
      unfold after. rewrite Heq. cbn [fst snd].
      assert (_connecting node = false) as Hcg by (by destruct (_connecting node)).
      split.
      * done.
      * intros _. change (_listeners _) with (_listeners (detached EvClose node)).
        rewrite detached_close_listeners. apply Forall_forall.
        intros l Hl. by apply list_elem_of_filter in Hl as [? _].
      * cbn. by rewrite Hcg.
      * change (_listeners _) with (_listeners (detached EvClose node)).
        rewrite detached_close_listeners. intros _.
        apply list_elem_of_filter. split; [cbn; tauto|done].
    + unfold after. rewrite client_emits_close_idle by done. cbn [fst snd].
      split.
      * change (connected node && _connecting node = false).
        by rewrite Hc.
      * intros _. rewrite detached_close_listeners. apply Forall_forall.
        intros l Hl. by apply list_elem_of_filter in Hl as [? _].
      * intros Hf. rewrite detached_close_listeners.
        apply list_elem_of_filter. split; [cbn; tauto|].
        apply H3. change (connected node || _connecting node = true) in Hf.
        by rewrite Hc in Hf.
      * rewrite !detached_close_listeners. intros Hf.
        apply list_elem_of_filter in Hf as [_ Hf].
        apply list_elem_of_filter. split; [cbn; tauto|by apply H4].
Qed.

Lemma Inv_step i node : Inv node → Inv (after (step i) node).
Proof.
  destruct i; cbn [step].
  - apply Inv_register.
  - apply Inv_unregister.
  - apply Inv_node_close.
  - apply Inv_emits.
  - intros HI. unfold after. by rewrite facade_eq.
Qed.

Lemma Inv_run inputs node : Inv node → Inv (after (run inputs) node).
Proof.
  revert node. induction inputs as [|i inputs IH]; intros node HI; [done|].
  rewrite after_run_cons. by apply IH, Inv_step.
Qed.

Lemma reachable_Inv node : reachable node → Inv node.
Proof. intros [inputs ->]. apply Inv_run, Inv_init. Qed.

(** ** Closed forms of the steps *)

Lemma registerUserNode_cases u node :
  registerUserNode u node =
    if connects u node then
      (tt, {| connected := connected node; _connecting := true;
              _closing := _closing node;
              _users := <[id u := u]> (_users node);
              _listeners :=
                _listeners node ++ [OnConnect; OnReconnect; OnClose] |},
       connect_calls)
    else (tt, after (set_users (insert (id u) u)) node, []).
Proof.
  rewrite registerUserNode_eq. cbv zeta. unfold connects.
  change (_users (after _ node)) with (<[id u := u]> (_users node)).
  destruct (size _ =? 1); [|reflexivity].
  rewrite _connect_eq.
  change (connected (after _ node)) with (connected node).
  change (_connecting (after _ node)) with (_connecting node).
  cbn [andb]. destruct (negb (connected node) && negb (_connecting node));
    reflexivity.
Qed.

Lemma run_once_listeners ls node :
  Forall (λ l, is_once l) ls →
  for_each ls run_listener node = (tt, node, ls ≫= idle_close_calls false).
Proof.
  induction 1 as [|l ls Hl _ IH]; [reflexivity|].
  destruct l; try done.
  rewrite for_each_cons, bind_eq. cbn [run_listener].
  unfold emit at 1. rewrite IH. reflexivity.
Qed.

Lemma after_emits_connect node :
  after (client_emits EvConnect) node =
    if bool_decide (OnConnect ∈ _listeners node) then connected_node node
    else node.
Proof.
  unfold after. rewrite client_emits_connect. cbn [fst snd].
  destruct (attached EvConnect node) as [|l ls] eqn:Hat.
  - rewrite bool_decide_eq_false_2; [done|]. intros Hin.
    assert (OnConnect ∈ attached EvConnect node) as Hin'
      by (by apply elem_of_attached).
    rewrite Hat in Hin'. by apply elem_of_nil in Hin'.
  - rewrite bool_decide_eq_true_2; [done|].
    assert (l ∈ attached EvConnect node) as Hl by (rewrite Hat; left).
    apply elem_of_attached in Hl as [Hl ?]. by destruct l.
Qed.

Lemma after_emits_close node :
  after (client_emits EvClose) node =
    if connected node && bool_decide (OnClose ∈ _listeners node)
    then disconnected_node (detached EvClose node)
    else detached EvClose node.
Proof.
  destruct (connected node) eqn:Hc; cbn [andb].
  - case_bool_decide as Hin.
    + destruct (client_emits_close_connected node Hc Hin)
        as (pre & post & _ & _ & Heq).
      unfold after. by rewrite Heq.
    + unfold after. rewrite client_emits_eq, run_once_listeners; [done|].
      apply Forall_forall. intros l [Hl Hin']%elem_of_attached.
      destruct l; try done.
  - unfold after. by rewrite client_emits_close_idle.
Qed.

Lemma statuses_callback st users : Forall is_callback (statuses st users).
Proof. apply Forall_forall. by intros e (i & u & _ & ->)%elem_of_statuses. Qed.

Lemma run_listeners_callback ls node :
  Forall is_callback (calls (for_each ls run_listener) node).
Proof.
  revert node. induction ls as [|l ls IH]; intros node; [constructor|].
  unfold calls. rewrite for_each_cons, bind_eq.
  destruct (run_listener l node) as [[[] node1] t1] eqn:Hl.
  specialize (IH node1). unfold calls in IH.
  destruct (for_each ls run_listener node1) as [[[] node2] t2].
  cbn [snd] in *. apply Forall_app. split; [|done].
  destruct l; cbn [run_listener] in Hl.
  - rewrite on_connect_eq in Hl. injection Hl as _ <-.
    apply statuses_callback.
  - rewrite on_reconnect_eq in Hl. injection Hl as _ <-.
    apply statuses_callback.
  - rewrite on_close_eq in Hl.
    destruct (connected node); [|destruct (_connecting node)];
      injection Hl as _ <-; [apply statuses_callback|by repeat constructor..].
  - injection Hl as _ <-. by repeat constructor.
Qed.

Lemma client_emits_callback ev node :
  Forall is_callback (calls (client_emits ev) node).
Proof.
  unfold calls. rewrite client_emits_eq. apply run_listeners_callback.
Qed.

(** Membership in a list of calls written out, none of which is the call
    looked for. *)
Ltac absurd_elem H :=
  repeat (apply elem_of_cons in H; destruct H as [H|H]; [discriminate H|]);
  apply elem_of_nil in H; destruct H.

(** [connect] is called by a registration that passes both guards, and by
    nothing else. *)
Lemma connect_called i node :
  ClientConnect ∈ calls (step i) node →
  ∃ u, i = Register u ∧ connects u node = true.
Proof.
  destruct i as [u|cc u d|d|ev|c]; cbn [step]; intros Hin.
  - exists u. split; [done|]. unfold calls in Hin.
    rewrite registerUserNode_cases in Hin.
    destruct (connects u node); [done|]. by apply elem_of_nil in Hin.
  - unfold calls in Hin. rewrite unregisterUserNode_eq in Hin.
    cbn [snd] in Hin. repeat case_match; absurd_elem Hin.
  - unfold calls in Hin. rewrite node_close_eq in Hin.
    destruct (connected node); absurd_elem Hin.
  - pose proof (client_emits_callback ev node) as Hcb.
    rewrite Forall_forall in Hcb. by apply Hcb in Hin.
  - unfold calls in Hin. rewrite facade_eq in Hin. cbn [snd] in Hin.
    repeat case_match; absurd_elem Hin.
Qed.

(** The node after one step, by cases on the input. *)
Lemma after_step i node :
  after (step i) node =
    match i with
    | Register u =>
        if connects u node then
          {| connected := connected node; _connecting := true;
             _closing := _closing node;
             _users := <[id u := u]> (_users node);
             _listeners :=
               _listeners node ++ [OnConnect; OnReconnect; OnClose] |}
        else after (set_users (insert (id u) u)) node
    | Unregister _ u _ => after (set_users (delete (id u))) node
    | Teardown done =>
        {| connected := connected node; _connecting := _connecting node;
           _closing := true; _users := _users node;
           _listeners :=
             if connected node then _listeners node ++ [OnceClose done]
             else _listeners node |}
    | Emits EvConnect =>
        if bool_decide (OnConnect ∈ _listeners node) then connected_node node
        else node
    | Emits EvReconnect => node
    | Emits EvClose =>
        if connected node && bool_decide (OnClose ∈ _listeners node)
        then disconnected_node (detached EvClose node)
        else detached EvClose node
    | Facade _ => node
    end.
Proof.
  destruct i as [u|cc u d|d|[]|c]; cbn [step].
  - unfold after at 1. rewrite registerUserNode_cases.
    by destruct (connects u node).
  - unfold after at 1. by rewrite unregisterUserNode_eq.
  - unfold after. rewrite node_close_eq. by destruct (connected node) eqn:Hc.
  - apply after_emits_connect.
  - unfold after. by rewrite client_emits_reconnect.
  - apply after_emits_close.
  - unfold after. by rewrite facade_eq.
Qed.

(** Unfolds the node after a step down to its fields. *)
Ltac step_fields :=
  rewrite ?after_step;
  unfold connected_node, disconnected_node, detached, after, bind,
    set_users, set_connected, set_connecting, set_listeners in *;
  cbn [connected _connecting _closing _users _listeners fst snd] in *.

(** The connecting flag, once set, is cleared by a ['connect'] emission
    only. *)
Lemma step_connecting_kept i node :
  _connecting node = true →
  i ≠ Emits EvConnect →
  _connecting (after (step i) node) = true.
Proof.
  intros Hcg Hi. step_fields.
  destruct i as [u|cc u d|d|[]|c]; try done; repeat case_match; done.
Qed.

Lemma run_connecting_kept inputs node :
  _connecting node = true →
  Emits EvConnect ∉ inputs →
  _connecting (after (run inputs) node) = true.
Proof.
  revert node. induction inputs as [|i inputs IH]; intros node Hcg Hin.
  - done.
  - rewrite after_run_cons. apply not_elem_of_cons in Hin as [Hi Hin].
    apply IH; [|done]. by apply step_connecting_kept.
Qed.

(** The closing flag is a latch. *)
Lemma step_closing_latch i node :
  _closing node = true → _closing (after (step i) node) = true.
Proof.
  intros Hcl. step_fields.
  destruct i as [u|cc u d|d|[]|c]; repeat case_match; done.
Qed.

Lemma run_closing_latch inputs node :
  _closing node = true → _closing (after (run inputs) node) = true.
Proof.
  revert node. induction inputs as [|i inputs IH]; intros node Hcl; [done|].
  rewrite after_run_cons. by apply IH, step_closing_latch.
Qed.

(** A listener stays attached, except a one-shot one across ['close']. *)
Lemma step_listener_kept l i node :
  l ∈ _listeners node →
  ¬ is_once l ∨ i ≠ Emits EvClose →
  l ∈ _listeners (after (step i) node).
Proof.
  intros Hl Hor. step_fields.
  destruct i as [u|cc u d|d|[]|c]; repeat case_match;
    cbn [_listeners]; try done; try (apply elem_of_app; by left).
  all: destruct Hor as [Hor|Hor]; [|done].
  all: apply list_elem_of_filter; split; [|done].
  all: intros [_ ?]%andb_True; done.
Qed.

Lemma run_listener_kept l inputs node :
  l ∈ _listeners node →
  ¬ is_once l ∨ Emits EvClose ∉ inputs →
  l ∈ _listeners (after (run inputs) node).
Proof.
  revert node. induction inputs as [|i inputs IH]; intros node Hl Hor.
  - done.
  - rewrite after_run_cons. apply IH.
    + apply step_listener_kept; [done|].
      destruct Hor as [?|Hin]; [by left|right].
      intros ->. apply Hin. left.
    + destruct Hor as [?|Hin]; [by left|right].
      intros ?. apply Hin. by right.
Qed.

(** * A close emission while connecting *)

Lemma detached_close_id node :
  Forall (λ l, ¬ is_once l) (_listeners node) → detached EvClose node = node.
Proof.
  intros Hall.
  assert (_listeners (detached EvClose node) = _listeners node) as Hls.
  { rewrite detached_close_listeners. by apply filter_id. }
  destruct node as [c cg cl us ls]. unfold detached, after, set_listeners in *.
  cbn [fst snd _listeners connected _connecting _closing _users] in *.
  by rewrite Hls.
Qed.

Lemma connect_failed_calls ls :
  Forall (λ l, ¬ is_once l) ls →
  ls ≫= idle_close_calls true
  = replicate (length ls) (NodeLog "Connect failed").
Proof.
  induction 1 as [|l ls Hl _ IH]; [reflexivity|].
  rewrite bind_cons, IH. by destruct l.
Qed.

(** C1, as amended.  A ['close'] emission that finds the node connecting
    (a connect attempt was started, no ['connect'] emission has arrived)
    leaves the node as it is: the connecting flag stays set.  Only the
    diagnostic "Connect failed" is logged, once per attached close
    listener and at least once; no status method is called.  As long as no
    ['connect'] emission arrives, no later registration calls the
    client's [connect]. *)
Theorem close_while_connecting node :
  reachable node →
  connected node = false →
  _connecting node = true →
  after (client_emits EvClose) node = node
  ∧ (∃ n, calls (client_emits EvClose) node
          = replicate (S n) (NodeLog "Connect failed"))
  ∧ (∀ inputs u,
       Emits EvConnect ∉ inputs →
       calls (registerUserNode u)
             (after (run inputs) (after (client_emits EvClose) node)) = []).
Proof.
  intros [_ Honce Hatt Hpair]%reachable_Inv Hc Hcg.
  specialize (Honce Hc).
  assert (after (client_emits EvClose) node = node) as Hafter.
  { rewrite after_emits_close, Hc. by apply detached_close_id. }
  split_and!.
  - done.
  - unfold calls. rewrite client_emits_close_idle, Hcg by done. cbn [snd].
    assert (OnClose ∈ attached EvClose node) as Hin.
    { apply elem_of_attached. split; [done|].
      apply Hpair, Hatt. by rewrite Hc, Hcg. }
    rewrite connect_failed_calls.
    + destruct (attached EvClose node) as [|l ls]; [by apply elem_of_nil in Hin|].
      by exists (length ls).
    + apply Forall_forall. intros l [_ Hl]%elem_of_attached.
      rewrite Forall_forall in Honce. by apply Honce.
  - intros inputs u Hno. rewrite Hafter.
    unfold calls. rewrite registerUserNode_cases.
    unfold connects. rewrite (run_connecting_kept inputs node Hcg Hno).
    by rewrite andb_false_r.
Qed.

Lemma close_while_connecting_witness :
  after (client_emits EvClose) (after (run [Register alice]) init)
  = after (run [Register alice]) init
  ∧ (∃ n, calls (client_emits EvClose) (after (run [Register alice]) init)
          = replicate (S n) (NodeLog "Connect failed"))
  ∧ (∀ inputs u,
       Emits EvConnect ∉ inputs →
       calls (registerUserNode u)
             (after (run inputs)
                (after (client_emits EvClose)
                   (after (run [Register alice]) init))) = []).
Proof.
  apply close_while_connecting.
  - by exists [Register alice].
  - vm_compute. reflexivity.
  - vm_compute. reflexivity.
Defined.

(** C1 as the specification states it fails: after [alice] registers, the
    node is connecting; a ['close'] emission leaves the connecting flag
    set, and when [alice] then unregisters and registers again (a 0 to 1
    transition of the table) the client's [connect] is not called. *)
Lemma close_while_connecting_flag_stays :
  connected (after (run [Register alice]) init) = false
  ∧ _connecting (after (run [Register alice]) init) = true
  ∧ _connecting (after (run [Register alice; Emits EvClose]) init) = true
  ∧ calls (run [Unregister false alice 0; Register alice])
          (after (run [Register alice; Emits EvClose]) init)
    = [ClientDisconnect None; Call 0].
Proof. vm_compute. by repeat split. Qed.

(** * Unregistering and the client's disconnect *)

Lemma delete_empty_iff (k : string) (m : gmap string UserNode) :
  delete k m = ∅ ↔ m = ∅ ∨ ∃ v, m = {[k := v]}.
Proof.
  split.
  - intros Hd. destruct (m !! k) as [v|] eqn:Hk.
    + right. exists v. rewrite <- (insert_delete_id m k v) by done.
      by rewrite Hd, insert_empty.
    + left. by rewrite <- Hd, delete_id.
  - intros [->|[v ->]]; [apply delete_empty|apply delete_singleton_eq].
Qed.

(** C2, as amended.  [unregisterUserNode] calls the client's [disconnect]
    exactly when the node is not closing and the table is empty once the
    id is removed: the table held that id alone (the 1 to 0 transition), or
    it was already empty (the id was absent).  When [disconnect] is called
    and the client reports itself connected, [done] is handed to
    [disconnect] and not called by the node; when the client does not, the
    call carries no callback and [done] is called at once.  When
    [disconnect] is not called, [done] is called at once. *)
Theorem unregister_disconnect cc u done node :
  let t := calls (unregisterUserNode cc u done) node in
  ((∃ cb, ClientDisconnect cb ∈ t) ↔
     _closing node = false
     ∧ (_users node = ∅ ∨ ∃ v, _users node = {[id u := v]}))
  ∧ ((∃ cb, ClientDisconnect cb ∈ t) →
       t = if cc then [ClientDisconnect (Some done)]
           else [ClientDisconnect None; Call done])
  ∧ (¬ (∃ cb, ClientDisconnect cb ∈ t) → t = [Call done]).
Proof.
  cbv zeta. unfold calls. rewrite unregisterUserNode_eq. cbn [snd].
  change (_users (after _ node)) with (delete (id u) (_users node)).
  rewrite <- delete_empty_iff, <- map_size_empty_iff.
  destruct (_closing node).
  { split_and!; [|by intros [cb Hin]; absurd_elem Hin|done].
    split; [|by intros [? _]]. intros [cb Hin]. absurd_elem Hin. }
  destruct (Nat.eqb_spec (size (delete (id u) (_users node))) 0) as [Hz|Hnz].
  - split_and!; [| done |].
    + split; [done|]. intros _. destruct cc; eexists; left.
    + intros Hno. destruct Hno. destruct cc; eexists; left.
  - split_and!; [|by intros [cb Hin]; absurd_elem Hin|done].
    split; [|by intros [_ ?]]. intros [cb Hin]. absurd_elem Hin.
Qed.

(** C2 as the specification states it fails: [alice] registers and
    unregisters, then unregisters once more; at the second removal her id
    is absent and the table is already empty, yet [disconnect] is called
    again. *)
Lemma unregister_absent_disconnects :
  _users (after (run [Register alice; Unregister false alice 0]) init) = ∅
  ∧ calls (unregisterUserNode false alice 1)
          (after (run [Register alice; Unregister false alice 0]) init)
    = [ClientDisconnect None; Call 1].
Proof. vm_compute. by split. Qed.

(** * Registering the same id again *)

Lemma step_busy_kept i node :
  connected node || _connecting node = true →
  (i = Emits EvClose → connected node = false) →
  connected (after (step i) node) || _connecting (after (step i) node) = true.
Proof.
  intros Hbusy Hi. step_fields.
  destruct i as [u|cc u d|d|[]|c]; repeat case_match;
    cbn [connected _connecting]; try done.
  - apply orb_true_r.
  - rewrite Hi in * by done. discriminate.
Qed.

(** C3 as the specification states it fails: [alice] registers, the
    client connects and then closes; [alice] registers again, with no
    unregistration in between, and the client's [connect] is called a
    second time. *)
Lemma reregister_after_close_connects :
  calls (run [Register alice; Emits EvConnect; Emits EvClose; Register alice])
        init
  = connect_calls
      ++ [UserStatus alice status_connected;
          UserStatus alice status_disconnected]
      ++ connect_calls.
Proof. vm_compute. reflexivity. Qed.

(** * Connected and connecting exclude each other *)

(** C4.  In every reachable node the connected and the connecting flag
    are not both set.  A step calls the client's [connect] only from a
    node where both flags are clear; it then calls it once and sets the
    connecting flag.  A connect attempt is in flight from that call until
    a ['connect'] emission: before a second call of [connect], a
    ['connect'] emission has arrived. *)
Theorem connect_attempts_exclusive inputs :
  let node := after (run inputs) init in
  connected node && _connecting node = false
  ∧ (∀ i, ClientConnect ∈ calls (step i) node →
          connected node = false ∧ _connecting node = false
          ∧ calls (step i) node = connect_calls
          ∧ _connecting (after (step i) node) = true)
  ∧ (∀ i inputs' j,
       ClientConnect ∈ calls (step i) node →
       ClientConnect ∈ calls (step j) (after (run (i :: inputs')) node) →
       Emits EvConnect ∈ inputs').
Proof.
  cbv zeta. set (node := after (run inputs) init).
  assert (∀ i n, ClientConnect ∈ calls (step i) n →
            connected n = false ∧ _connecting n = false
            ∧ calls (step i) n = connect_calls
            ∧ _connecting (after (step i) n) = true) as Hguard.
  { intros i n (u & -> & Hconn)%connect_called. cbn [step].
    unfold calls, after. rewrite registerUserNode_cases, Hconn.
    unfold connects in Hconn.
    destruct (connected n), (_connecting n); try done;
      by rewrite ?andb_false_r in Hconn. }
  split_and!.
  - apply (inv_exclusive node), Inv_run, Inv_init.
  - intros i. apply Hguard.
  - intros i inputs' j Hi Hj.
    destruct (decide (Emits EvConnect ∈ inputs')) as [|Hno]; [done|].
    apply Hguard in Hi as (_ & _ & _ & Hcg).
    apply Hguard in Hj as (_ & Hcg' & _).
    rewrite after_run_cons in Hcg'.
    by rewrite (run_connecting_kept inputs' _ Hcg Hno) in Hcg'.
Qed.

(** * The ['connect'] emission *)

Lemma connect_requested_attached inputs node :
  ClientConnect ∈ calls (run inputs) node →
  OnConnect ∈ _listeners (after (run inputs) node).
Proof.
  revert node. induction inputs as [|i inputs IH]; intros node Hin.
  - by apply elem_of_nil in Hin.
  - rewrite calls_run_cons in Hin. rewrite after_run_cons.
    apply elem_of_app in Hin as [Hin|Hin]; [|by apply IH].
    apply connect_called in Hin as (u & -> & Hconn).
    apply run_listener_kept; [|left; cbn; tauto].
    rewrite after_step, Hconn. cbn [_listeners]. set_solver.
Qed.

(** C5.  Once the client's [connect] has been called, a ['connect']
    emission clears the connecting flag and sets the connected flag; it
    leaves the table and the closing flag alone, and the calls it makes are
    calls of the status method of the user nodes in the table, each with
    green, dot, connected, and every user node in the table is called. *)
Theorem connect_success inputs :
  ClientConnect ∈ calls (run inputs) init →
  let node := after (run inputs) init in
  let node' := after (client_emits EvConnect) node in
  _connecting node' = false
  ∧ connected node' = true
  ∧ _closing node' = _closing node
  ∧ _users node' = _users node
  ∧ (∀ e, e ∈ calls (client_emits EvConnect) node ↔
          ∃ i u, _users node !! i = Some u
                 ∧ e = UserStatus u status_connected).
Proof.
  intros Hatt%connect_requested_attached. cbv zeta.
  set (node := after (run inputs) init) in *.
  rewrite after_emits_connect, bool_decide_eq_true_2 by done.
  split_and!; [done..|].
  intros e. unfold calls. rewrite client_emits_connect. cbn [snd].
  rewrite list_elem_of_join. setoid_rewrite list_elem_of_fmap.
  rewrite <- elem_of_statuses. split.
  - by intros (l & He & (_ & -> & _)).
  - intros He. eexists. split; [exact He|].
    exists OnConnect. split; [done|]. by apply elem_of_attached.
Qed.

Lemma connect_success_witness :
  _connecting (after (run [Register alice; Emits EvConnect]) init) = false
  ∧ connected (after (run [Register alice; Emits EvConnect]) init) = true
  ∧ UserStatus alice status_connected
      ∈ calls (client_emits EvConnect) (after (run [Register alice]) init).
Proof.
  assert (ClientConnect ∈ calls (run [Register alice]) init) as Hcall
    by (vm_compute; left).
  destruct (connect_success [Register alice] Hcall)
    as (Hcg & Hc & _ & _ & Hcalls).
  split_and!; [exact Hcg|exact Hc|].
  apply Hcalls. exists (id alice), alice. split; [|reflexivity].
  vm_compute. reflexivity.
Defined.

(** * The ['close'] emission while connected *)

Lemma idle_calls_pending ls :
  ls ≫= idle_close_calls false = Call <$> pending ls.
Proof.
  induction ls as [|l ls IH]; [reflexivity|].
  rewrite bind_cons, IH. by destruct l.
Qed.

(** C6.  A ['close'] emission that finds a reachable node connected clears
    the connected flag and leaves the other flags and the table alone.  It
    calls the status method of every user node in the table with red, ring,
    disconnected, in one broadcast; its other calls are continuations of
    pending teardowns. *)
Theorem connected_close_broadcast node :
  reachable node →
  connected node = true →
  let node' := after (client_emits EvClose) node in
  connected node' = false
  ∧ _connecting node' = _connecting node
  ∧ _closing node' = _closing node
  ∧ _users node' = _users node
  ∧ (∀ i u, _users node !! i = Some u →
            UserStatus u status_disconnected
              ∈ calls (client_emits EvClose) node)
  ∧ (∃ dones1 dones2,
       calls (client_emits EvClose) node
       = (Call <$> dones1)
           ++ statuses status_disconnected (_users node)
           ++ (Call <$> dones2)).
Proof.
  intros [Hex _ Hatt Hpair]%reachable_Inv Hc. cbv zeta.
  assert (OnClose ∈ _listeners node) as Hin.
  { apply Hpair, Hatt. by rewrite Hc. }
  assert (_connecting node = false) as Hcg.
  { rewrite Hc in Hex. by destruct (_connecting node). }
  destruct (client_emits_close_connected node Hc Hin)
    as (pre & post & _ & _ & Heq).
  unfold after, calls. rewrite Heq, Hcg, !idle_calls_pending. cbn [fst snd].
  split_and!; [done..| |by eauto].
  intros i u Hlk. apply elem_of_app. right. apply elem_of_app. left.
  apply elem_of_statuses. eauto.
Qed.

Lemma connected_close_broadcast_witness :
  connected (after (run [Register alice; Emits EvConnect; Emits EvClose]) init)
  = false
  ∧ UserStatus alice status_disconnected
      ∈ calls (client_emits EvClose)
              (after (run [Register alice; Emits EvConnect]) init).
Proof.
  assert (reachable (after (run [Register alice; Emits EvConnect]) init))
    as Hr by (by eexists).
  assert (connected (after (run [Register alice; Emits EvConnect]) init)
          = true) as Hc by (vm_compute; reflexivity).
  destruct (connected_close_broadcast _ Hr Hc) as (Hc' & _ & _ & _ & Hall & _).
  split; [exact Hc'|].
  apply (Hall (id alice)). vm_compute. reflexivity.
Defined.

(** * Unregistering after teardown *)

(** C7.  Once the node's close handler has run, in whatever node and
    whatever happens before and after it, [unregisterUserNode] only calls
    [done]: it calls neither the client's [disconnect] nor a status
    method. *)
Theorem unregister_after_teardown node inputs1 d inputs2 cc u done :
  calls (unregisterUserNode cc u done)
        (after (run (inputs1 ++ Teardown d :: inputs2)) node)
  = [Call done].
Proof.
  unfold calls. rewrite unregisterUserNode_eq. cbn [snd].
  rewrite after_run_app, after_run_cons, run_closing_latch; [done|].
  by rewrite after_step.
Qed.

(** * Teardown *)

Lemma once_listener_called done node :
  OnceClose done ∈ _listeners node →
  Call done ∈ calls (client_emits EvClose) node.
Proof.
  intros Hin. unfold calls. rewrite client_emits_eq.
  assert (OnceClose done ∈ attached EvClose node) as Hat
    by (by apply elem_of_attached).
  revert Hat. generalize (attached EvClose node), (detached EvClose node).
  intros ls. induction ls as [|l ls IH]; intros n Hat.
  - by apply elem_of_nil in Hat.
  - rewrite for_each_cons, bind_eq.
    destruct (run_listener l n) as [[[] n1] t1] eqn:Hl.
    specialize (IH n1).
    destruct (for_each ls run_listener n1) as [[[] n2] t2].
    cbn [snd] in *. apply elem_of_app.
    apply elem_of_cons in Hat as [<-|Hat]; [|right; by apply IH].
    left. cbn in Hl. injection Hl as _ <-. left.
Qed.

(** C8.  The node's close handler sets the closing flag and calls the
    client's [destroy], whatever the table holds.  When the node is
    connected it first attaches a one-shot ['close'] listener and does not
    call [done]; the listener calls [done] at the next ['close'] emission.
    When the node is not connected, [done] is called right after
    [destroy]. *)
Theorem teardown_completion done node :
  let t := calls (node_close done) node in
  let node' := after (node_close done) node in
  _closing node' = true
  ∧ ClientDestroy ∈ t
  ∧ (Call done ∈ t ↔ connected node = false)
  ∧ (connected node = false → t = [ClientDestroy; Call done])
  ∧ (connected node = true →
       t = [ClientOn (OnceClose done); ClientDestroy]
       ∧ ∀ inputs,
           Emits EvClose ∉ inputs →
           Call done ∈ calls (client_emits EvClose)
                              (after (run inputs) node')).
Proof.
  cbv zeta. unfold calls at 1 2 3 4, after at 1 3.
  rewrite node_close_eq.
  destruct (connected node) eqn:Hc; cbn [fst snd].
  - split_and!; [done|by right; left| |done|].
    + split; [|done]. intros Hin. absurd_elem Hin.
    + intros _. split; [done|]. intros inputs Hno.
      apply once_listener_called, run_listener_kept; [|by right].
      cbn [_listeners]. apply elem_of_app. right. left.
  - split_and!; [done|by left| |done|done].
    split; [done|]. intros _. right. left.
Qed.

(** C9, as amended.  A second run of the node's close handler leaves the
    flags and the table as the first run left them, the closing flag set.
    It is not without effect on the client: [destroy] is called again, and
    the completion is handled as in the first run, with a further
    one-shot ['close'] listener when the node is connected and a call of
    [done] when it is not. *)
Theorem teardown_again done1 done2 node :
  let node1 := after (node_close done1) node in
  let node2 := after (node_close done2) node1 in
  connected node2 = connected node1
  ∧ _connecting node2 = _connecting node1
  ∧ _closing node2 = true
  ∧ _closing node1 = true
  ∧ _users node2 = _users node1
  ∧ calls (node_close done2) node1
    = if connected node then [ClientOn (OnceClose done2); ClientDestroy]
      else [ClientDestroy; Call done2].
Proof.
  cbv zeta. unfold calls, after. rewrite !node_close_eq.
  destruct (connected node) eqn:Hc; cbn [fst snd connected];
    by split_and!.
Qed.

(** C9 as the specification states it fails: the close handler run a
    second time calls the client's [destroy] a second time. *)
Lemma teardown_again_destroys :
  calls (run [Teardown 0; Teardown 1]) init
  = [ClientDestroy; Call 0; ClientDestroy; Call 1].
Proof. vm_compute. reflexivity. Qed.

(** * Registering into a table that is not empty *)

Lemma size_insert_other (m : gmap string UserNode) k v i :
  i ≠ k → is_Some (m !! i) → size (<[k := v]> m) ≠ 1.
Proof.
  intros Hne [x Hx] Hsz.
  assert (size (delete k (<[k := v]> m)) = 0) as Hz.
  { rewrite map_size_delete, lookup_insert_eq, Hsz. reflexivity. }
  apply map_size_empty_iff in Hz.
  assert (delete k (<[k := v]> m) !! i = Some x) as Hlk.
  { by rewrite lookup_delete_ne, lookup_insert_ne. }
  by rewrite Hz, lookup_empty in Hlk.
Qed.

(** C10, as amended.  Registering into a table that is not empty makes no
    call at all (no status method, no [connect]) and changes the entry of
    the registered id only, the flags and the listeners staying as they
    are, provided the table holds another id or the node is connected or
    connecting. *)
Theorem register_nonempty u node :
  _users node ≠ ∅ →
  (∃ i, i ≠ id u ∧ is_Some (_users node !! i))
  ∨ connected node = true ∨ _connecting node = true →
  calls (registerUserNode u) node = []
  ∧ after (registerUserNode u) node
    = {| connected := connected node; _connecting := _connecting node;
         _closing := _closing node;
         _users := <[id u := u]> (_users node);
         _listeners := _listeners node |}.
Proof.
  intros _ Hor. unfold calls, after. rewrite registerUserNode_cases.
  assert (connects u node = false) as ->; [|done].
  unfold connects. destruct Hor as [(i & Hne & Hi)|[Hc|Hcg]].
  - pose proof (size_insert_other (_users node) (id u) u i Hne Hi) as Hsz.
    by destruct (Nat.eqb_spec (size (<[id u := u]> (_users node))) 1).
  - by rewrite Hc, andb_false_r.
  - by rewrite Hcg, andb_false_r.
Qed.

Lemma register_nonempty_witness :
  calls (registerUserNode bob)
        (after (run [Register alice; Emits EvConnect]) init) = []
  ∧ after (registerUserNode bob)
          (after (run [Register alice; Emits EvConnect]) init)
    = {| connected := true; _connecting := false; _closing := false;
         _users := <[id bob := bob]> {[id alice := alice]};
         _listeners := [OnConnect; OnReconnect; OnClose] |}.
Proof.
  apply (register_nonempty bob
           (after (run [Register alice; Emits EvConnect]) init)).
  - vm_compute. discriminate.
  - left. exists (id alice). split; [vm_compute; discriminate|].
    exists alice. vm_compute. reflexivity.
Defined.

(** C10 as the specification states it fails: [alice] registers, the
    client connects and then closes; the table still holds [alice], and
    registering her again calls the client's [connect] and sets the
    connecting flag. *)
Lemma register_nonempty_connects :
  _users (after (run [Register alice; Emits EvConnect; Emits EvClose]) init)
    !! id alice = Some alice
  ∧ _connecting
      (after (run [Register alice; Emits EvConnect; Emits EvClose]) init)
    = false
  ∧ calls (registerUserNode alice)
          (after (run [Register alice; Emits EvConnect; Emits EvClose]) init)
    = connect_calls
  ∧ _connecting
      (after (run [Register alice; Emits EvConnect; Emits EvClose;
                   Register alice]) init)
    = true.
Proof. vm_compute. by repeat split. Qed.

(** * The table of user nodes *)

Lemma users_after_step i node :
  _users (after (step i) node) =
    match i with
    | Register u => <[id u := u]> (_users node)
    | Unregister _ u _ => delete (id u) (_users node)
    | _ => _users node
    end.
Proof.
  step_fields.
  destruct i as [u|cc u d|d|[]|c]; repeat case_match; reflexivity.
Qed.

Lemma keyed_step i node : keyed node → keyed (after (step i) node).
Proof.
  intros Hk k u. rewrite users_after_step.
  destruct i as [w|cc w d|d|ev|c]; try apply Hk.
  - intros [[<- <-]|[_ Hlk]]%lookup_insert_Some; [done|by apply Hk].
  - intros [_ Hlk]%lookup_delete_Some. by apply Hk.
Qed.

Lemma keyed_run inputs node : keyed node → keyed (after (run inputs) node).
Proof.
  revert node. induction inputs as [|i inputs IH]; intros node Hk; [done|].
  rewrite after_run_cons. by apply IH, keyed_step.
Qed.

Lemma reachable_keyed node : reachable node → keyed node.
Proof.
  intros [inputs ->]. apply keyed_run. intros k u Hlk.
  unfold init in Hlk. cbn [_users] in Hlk. by rewrite lookup_empty in Hlk.
Qed.

Lemma calls_for_each_cons {A} (a : A) l body node :
  calls (for_each (a :: l) body) node
  = calls (body a) node ++ calls (for_each l body) (after (body a) node).
Proof. reflexivity. Qed.

Lemma run_listener_users l node :
  _users (after (run_listener l) node) = _users node.
Proof.
  unfold after. destruct l; cbn [run_listener].
  - by rewrite on_connect_eq.
  - by rewrite on_reconnect_eq.
  - rewrite on_close_eq. by repeat case_match.
  - done.
Qed.

Lemma run_listener_status l node u st :
  UserStatus u st ∈ calls (run_listener l) node →
  ∃ k, _users node !! k = Some u.
Proof.
  unfold calls. destruct l; cbn [run_listener].
  - rewrite on_connect_eq. intros (k & w & Hlk & [= -> _])%elem_of_statuses.
    eauto.
  - rewrite on_reconnect_eq. intros (k & w & Hlk & [= -> _])%elem_of_statuses.
    eauto.
  - rewrite on_close_eq. repeat case_match; cbn [snd]; intros Hin.
    + apply elem_of_statuses in Hin as (k & w & Hlk & [= -> _]). eauto.
    + absurd_elem Hin.
    + absurd_elem Hin.
  - intros Hin. absurd_elem Hin.
Qed.

Lemma run_listeners_status ls node u st :
  UserStatus u st ∈ calls (for_each ls run_listener) node →
  ∃ k, _users node !! k = Some u.
Proof.
  revert node. induction ls as [|l ls IH]; intros node Hin.
  - by apply elem_of_nil in Hin.
  - rewrite calls_for_each_cons in Hin.
    apply elem_of_app in Hin as [Hin|Hin].
    + by eapply run_listener_status.
    + apply IH in Hin. by rewrite run_listener_users in Hin.
Qed.

(** A status method is called by an emission only, and on a node object
    the table holds. *)
Lemma status_call_registered i node u st :
  UserStatus u st ∈ calls (step i) node →
  (∃ ev, i = Emits ev) ∧ ∃ k, _users node !! k = Some u.
Proof.
  destruct i as [w|cc w d|d|ev|c]; cbn [step]; intros Hin.
  - unfold calls in Hin. rewrite registerUserNode_cases in Hin.
    destruct (connects w node); absurd_elem Hin.
  - unfold calls in Hin. rewrite unregisterUserNode_eq in Hin.
    cbn [snd] in Hin. repeat case_match; absurd_elem Hin.
  - unfold calls in Hin. rewrite node_close_eq in Hin.
    destruct (connected node); absurd_elem Hin.
  - split; [by eexists|]. unfold calls in Hin.
    rewrite client_emits_eq in Hin.
    by apply run_listeners_status in Hin.
  - unfold calls in Hin. rewrite facade_eq in Hin. cbn [snd] in Hin.
    repeat case_match; absurd_elem Hin.
Qed.

(** X1.  Whatever has happened since the node was constructed, a status
    method is called only when the client emits an event, never by a
    registration, an unregistration, the close handler or a pass-through
    method, and only on a node object that is in the table, under its own
    id, at that moment. *)
Theorem status_only_to_registered inputs i u st :
  UserStatus u st ∈ calls (step i) (after (run inputs) init) →
  (∃ ev, i = Emits ev)
  ∧ _users (after (run inputs) init) !! id u = Some u.
Proof.
  intros [Hev [k Hlk]]%status_call_registered. split; [done|].
  assert (id u = k) as ->; [|done].
  eapply reachable_keyed; [by eexists|done].
Qed.

Lemma status_only_to_registered_witness :
  (∃ ev, Emits EvConnect = Emits ev)
  ∧ _users (after (run [Register alice; Register bob]) init) !! id bob
    = Some bob.
Proof.
  apply (status_only_to_registered [Register alice; Register bob]
           (Emits EvConnect) bob status_connected).
  apply (bool_decide_unpack _). vm_compute. exact I.
Defined.

Lemma absent_step k i node :
  _users node !! k = None →
  registers k i = false →
  _users (after (step i) node) !! k = None.
Proof.
  intros Hk Hreg. rewrite users_after_step.
  destruct i as [w|cc w d|d|ev|c]; try done.
  - cbn in Hreg. apply bool_decide_eq_false in Hreg.
    by rewrite lookup_insert_ne.
  - apply lookup_delete_None. by right.
Qed.

Lemma absent_not_notified k inputs node v st :
  keyed node →
  _users node !! k = None →
  existsb (registers k) inputs = false →
  UserStatus v st ∈ calls (run inputs) node →
  id v ≠ k.
Proof.
  revert node. induction inputs as [|i inputs IH]; intros node Hkey Hk Hno Hin.
  - by apply elem_of_nil in Hin.
  - cbn [existsb] in Hno. apply orb_false_iff in Hno as [Hi Hno].
    rewrite calls_run_cons in Hin. apply elem_of_app in Hin as [Hin|Hin].
    + apply status_call_registered in Hin as [_ [k' Hlk]].
      rewrite (Hkey _ _ Hlk). intros ->. by rewrite Hk in Hlk.
    + eapply IH; [| |done|done].
      * by apply keyed_step.
      * by apply absent_step.
Qed.

(** X2.  Once a node has been unregistered, no status method is called on
    any node object carrying its id, whatever the client emits and
    whatever else is done, until a node with that id is registered
    again. *)
Theorem unregistered_not_notified node cc u d inputs v st :
  reachable node →
  existsb (registers (id u)) inputs = false →
  UserStatus v st
    ∈ calls (run inputs) (after (unregisterUserNode cc u d) node) →
  id v ≠ id u.
Proof.
  intros Hr Hno Hin.
  eapply (absent_not_notified (id u)); [| |done|done].
  - apply (keyed_step (Unregister cc u d)). by apply reachable_keyed.
  - change (_users (after (step (Unregister cc u d)) node) !! id u = None).
    rewrite users_after_step. apply lookup_delete_eq.
Qed.

Lemma unregistered_not_notified_witness :
  UserStatus bob status_connected
    ∈ calls (run [Emits EvConnect])
            (after (unregisterUserNode false alice 0)
               (after (run [Register alice; Register bob]) init))
  ∧ id bob ≠ id alice.
Proof.
  assert (UserStatus bob status_connected
            ∈ calls (run [Emits EvConnect])
                    (after (unregisterUserNode false alice 0)
                       (after (run [Register alice; Register bob]) init)))
    as Hin by (apply (bool_decide_unpack _); vm_compute; exact I).
  split; [exact Hin|].
  apply (unregistered_not_notified
           (after (run [Register alice; Register bob]) init)
           false alice 0 [Emits EvConnect] bob status_connected).
  - by eexists.
  - vm_compute. reflexivity.
  - exact Hin.
Defined.

Lemma after_run_nil node : after (run []) node = node.
Proof. reflexivity. Qed.

(** X3.  The table is a map keyed by id, without reference counts.  A
    registration stores the node under its id, replacing an earlier node
    object with that id, and leaves the other ids alone; an unregistration
    removes the id and leaves the other ids alone.  Registering an absent
    id and unregistering it restores the table; registering an id twice
    and unregistering it once leaves the id absent. *)
Theorem registry_by_id node u cc d :
  (∀ k, _users (after (registerUserNode u) node) !! k
        = if decide (k = id u) then Some u else _users node !! k)
  ∧ (∀ k, _users (after (unregisterUserNode cc u d) node) !! k
          = if decide (k = id u) then None else _users node !! k)
  ∧ (_users node !! id u = None →
       _users (after (run [Register u; Unregister cc u d]) node)
       = _users node)
  ∧ (∀ u', id u' = id u →
       _users (after (run [Register u; Register u'; Unregister cc u d]) node)
         !! id u = None).
Proof.
  split_and!.
  - intros k. change (registerUserNode u) with (step (Register u)).
    rewrite users_after_step. case_decide as Hk.
    + subst k. apply lookup_insert_eq.
    + by apply lookup_insert_ne.
  - intros k. change (unregisterUserNode cc u d)
      with (step (Unregister cc u d)).
    rewrite users_after_step. case_decide as Hk.
    + subst k. apply lookup_delete_eq.
    + by apply lookup_delete_ne.
  - intros Hk. rewrite !after_run_cons, after_run_nil, !users_after_step.
    rewrite delete_insert_eq. by apply delete_id.
  - intros u' Heq.
    rewrite !after_run_cons, after_run_nil, !users_after_step.
    apply lookup_delete_eq.
Qed.

(** * Listeners pile up *)

Lemma connect_count_app t1 t2 :
  connect_count (t1 ++ t2) = connect_count t1 + connect_count t2.
Proof. unfold connect_count. by rewrite filter_app, length_app. Qed.

Lemma connect_count_0 t : ClientConnect ∉ t → connect_count t = 0.
Proof.
  intros Hno. unfold connect_count.
  destruct (filter _ t) as [|e t'] eqn:Hf; [done|].
  assert (e ∈ filter (λ e, e = ClientConnect) t) as He by (rewrite Hf; left).
  apply list_elem_of_filter in He as [-> He]. done.
Qed.

Lemma connect_count_pos t : connect_count t ≠ 0 → ClientConnect ∈ t.
Proof.
  intros Hpos. destruct (decide (ClientConnect ∈ t)) as [|Hno]; [done|].
  by apply connect_count_0 in Hno.
Qed.

Lemma connect_count_step i node :
  connect_count (calls (step i) node)
  = if starts_connect i node then 1 else 0.
Proof.
  destruct (starts_connect i node) eqn:Hs.
  - destruct i as [u| | | |]; try done. cbn in Hs. cbn [step].
    unfold calls. by rewrite registerUserNode_cases, Hs.
  - apply connect_count_0. intros (u & -> & Hc)%connect_called.
    cbn in Hs. congruence.
Qed.

Lemma attached_after_step ev i node :
  ev ≠ EvClose →
  attached ev (after (step i) node)
  = attached ev node
      ++ if starts_connect i node
         then filter (λ l, listens ev l) [OnConnect; OnReconnect; OnClose]
         else [].
Proof.
  intros Hev. unfold attached. rewrite after_step.
  destruct i as [u|cc u d|d|[]|c]; cbn [starts_connect].
  - destruct (connects u node); cbn [_listeners].
    + apply filter_app.
    + by rewrite app_nil_r.
  - by rewrite app_nil_r.
  - rewrite app_nil_r. cbn [_listeners].
    destruct (connected node); [|done].
    rewrite filter_app. destruct ev; try done; by rewrite app_nil_r.
  - rewrite app_nil_r. by case_bool_decide.
  - by rewrite app_nil_r.
  - rewrite app_nil_r.
    assert (filter (λ l, listens ev l) (_listeners (detached EvClose node))
            = filter (λ l, listens ev l) (_listeners node)) as Hf.
    { rewrite detached_close_listeners, list_filter_filter.
      apply list_filter_iff. intros l. destruct ev, l; try done; cbn; tauto. }
    by destruct (connected node && _).
  - by rewrite app_nil_r.
Qed.

Lemma attached_count inputs node ev :
  ev ≠ EvClose →
  length (attached ev (after (run inputs) node))
  = length (attached ev node) + connect_count (calls (run inputs) node).
Proof.
  intros Hev. revert node.
  induction inputs as [|i inputs IH]; intros node.
  - cbn. by rewrite Nat.add_0_r.
  - rewrite after_run_cons, calls_run_cons, connect_count_app, IH.
    rewrite attached_after_step, length_app, connect_count_step by done.
    rewrite <- Nat.add_assoc. f_equal.
    destruct (starts_connect i node); [|done].
    by destruct ev.
Qed.

Lemma join_const {A B} (l : list A) (t : list B) :
  mjoin ((λ _, t) <$> l) = mjoin (replicate (length l) t).
Proof. f_equal. by apply const_fmap. Qed.

(** X4.  Every [_connect] that passes its guard attaches a further
    ['connect'] and a further ['reconnect'] listener, and none is ever
    detached: after [n] calls of the client's [connect], a ['connect']
    emission (and a ['reconnect'] emission) makes the whole broadcast [n]
    times over, so each registered node's status method is called [n]
    times. *)
Theorem broadcast_multiplicity inputs :
  let node := after (run inputs) init in
  let n := connect_count (calls (run inputs) init) in
  calls (client_emits EvConnect) node
  = mjoin (replicate n (statuses status_connected (_users node)))
  ∧ calls (client_emits EvReconnect) node
    = mjoin (replicate n (statuses status_connecting (_users node))).
Proof.
  cbv zeta. unfold calls at 1 3.
  rewrite client_emits_connect, client_emits_reconnect. cbn [snd].
  rewrite !join_const, !attached_count by done. done.
Qed.

(** X5.  A ['reconnect'] emission changes nothing in the node, neither a
    flag nor the table nor a listener; all it does is call status methods
    with yellow, ring, connecting, on the nodes in the table, provided a
    ['reconnect'] listener is attached. *)
Theorem reconnect_cosmetic node :
  after (client_emits EvReconnect) node = node
  ∧ (∀ e, e ∈ calls (client_emits EvReconnect) node ↔
          OnReconnect ∈ _listeners node
          ∧ ∃ k u, _users node !! k = Some u
                   ∧ e = UserStatus u status_connecting).
Proof.
  unfold after, calls. rewrite client_emits_reconnect. cbn [fst snd].
  split; [done|]. intros e.
  rewrite list_elem_of_join. setoid_rewrite list_elem_of_fmap.
  rewrite <- elem_of_statuses. split.
  - intros (t & He & (l & -> & [Hl Hin]%elem_of_attached)).
    split; [|done]. by destruct l.
  - intros [Hin He]. eexists. split; [exact He|].
    exists OnReconnect. split; [done|]. by apply elem_of_attached.
Qed.

(** * A ['close'] emission on an idle node *)

Lemma idle_calls_none ls :
  Forall (λ l, ¬ is_once l) ls → ls ≫= idle_close_calls false = [].
Proof.
  induction 1 as [|l ls Hl _ IH]; [done|].
  rewrite bind_cons, IH. by destruct l.
Qed.

(** X6.  A ['close'] emission that finds a reachable node neither
    connected nor connecting (a second ['close'], or one after the node
    has been torn down while idle) does nothing: no call is made and the
    node is as before. *)
Theorem idle_close_silent node :
  reachable node →
  connected node = false →
  _connecting node = false →
  client_emits EvClose node = (tt, node, []).
Proof.
  intros [_ Honce _ _]%reachable_Inv Hc Hcg. specialize (Honce Hc).
  rewrite client_emits_close_idle, Hcg by done.
  rewrite detached_close_id by done.
  rewrite idle_calls_none; [done|].
  apply Forall_forall. intros l [_ Hl]%elem_of_attached.
  rewrite Forall_forall in Honce. by apply Honce.
Qed.

Lemma idle_close_silent_witness :
  client_emits EvClose
    (after (run [Register alice; Emits EvConnect; Emits EvClose]) init)
  = (tt, after (run [Register alice; Emits EvConnect; Emits EvClose]) init,
     []).
Proof.
  apply idle_close_silent.
  - by eexists.
  - vm_compute. reflexivity.
  - vm_compute. reflexivity.
Defined.

(** * Where the flags come from *)

Lemma connected_step i node :
  connected node = false →
  connected (after (step i) node) = true →
  i = Emits EvConnect.
Proof.
  intros Hc. step_fields.
  destruct i as [u|cc u d|d|[]|c]; repeat case_match;
    cbn [connected]; congruence.
Qed.

Lemma connected_run inputs node :
  connected node = false →
  connected (after (run inputs) node) = true →
  Emits EvConnect ∈ inputs.
Proof.
  revert node. induction inputs as [|i inputs IH]; intros node Hc Hc'.
  - rewrite after_run_nil in Hc'. congruence.
  - rewrite after_run_cons in Hc'.
    destruct (connected (after (step i) node)) eqn:Hi.
    + apply connected_step in Hi as ->; [left|done].
    + right. by eapply IH.
Qed.

(** X11.  The flags have a cause.  The node is connected only if the
    client's [connect] has been called and the client has emitted
    ['connect']; it is connecting only if [connect] has been called. *)
Theorem flags_have_cause inputs :
  let node := after (run inputs) init in
  (connected node = true →
     ClientConnect ∈ calls (run inputs) init ∧ Emits EvConnect ∈ inputs)
  ∧ (_connecting node = true → ClientConnect ∈ calls (run inputs) init).
Proof.
  cbv zeta.
  assert (connected (after (run inputs) init)
          || _connecting (after (run inputs) init) = true →
          ClientConnect ∈ calls (run inputs) init) as Hcall.
  { intros Hbusy. apply connect_count_pos.
    pose proof (attached_count inputs init EvConnect ltac:(done)) as Hlen.
    assert (OnConnect ∈ attached EvConnect (after (run inputs) init)) as Hin.
    { apply elem_of_attached. split; [done|].
      by apply (inv_attached _ (Inv_run inputs init Inv_init)). }
    destruct (attached EvConnect (after (run inputs) init));
      [by apply elem_of_nil in Hin|].
    cbn in Hlen. lia. }
  split.
  - intros Hc. split.
    + apply Hcall. by rewrite Hc.
    + by apply (connected_run inputs init).
  - intros Hcg. apply Hcall. by rewrite Hcg, orb_true_r.
Qed.

(** * Teardown continuations are one-shot *)

Lemma run_listeners_call ls node d :
  Call d ∈ calls (for_each ls run_listener) node → OnceClose d ∈ ls.
Proof.
  revert node. induction ls as [|l ls IH]; intros node Hin.
  - by apply elem_of_nil in Hin.
  - rewrite calls_for_each_cons in Hin.
    apply elem_of_app in Hin as [Hin|Hin]; [|right; by eapply IH].
    unfold calls in Hin. destruct l; cbn [run_listener] in Hin.
    + rewrite on_connect_eq in Hin.
      by apply elem_of_statuses in Hin as (? & ? & _ & ?).
    + rewrite on_reconnect_eq in Hin.
      by apply elem_of_statuses in Hin as (? & ? & _ & ?).
    + rewrite on_close_eq in Hin. repeat case_match; cbn [snd] in Hin.
      * by apply elem_of_statuses in Hin as (? & ? & _ & ?).
      * absurd_elem Hin.
      * absurd_elem Hin.
    + apply list_elem_of_singleton in Hin as [= ->]. left.
Qed.

(** X13.  A ['close'] emission detaches every one-shot listener of the
    close handler as it calls its continuation: after any ['close']
    emission no one-shot listener is attached, and the next emission,
    whatever the event, calls no teardown continuation. *)
Theorem teardown_continuation_one_shot node :
  Forall (λ l, ¬ is_once l) (_listeners (after (client_emits EvClose) node))
  ∧ (∀ ev d,
       Call d ∉ calls (client_emits ev) (after (client_emits EvClose) node)).
Proof.
  assert (Forall (λ l, ¬ is_once l)
            (_listeners (after (client_emits EvClose) node))) as Hnone.
  { rewrite after_emits_close.
    assert (_listeners (if connected node
                           && bool_decide (OnClose ∈ _listeners node)
                        then disconnected_node (detached EvClose node)
                        else detached EvClose node)
            = _listeners (detached EvClose node)) as ->
      by (by destruct (connected node && _)).
    rewrite detached_close_listeners. apply Forall_forall.
    by intros l [? _]%list_elem_of_filter. }
  split; [done|]. intros ev d Hin.
  unfold calls in Hin. rewrite client_emits_eq in Hin.
  apply run_listeners_call, elem_of_attached in Hin as [_ Hin].
  rewrite Forall_forall in Hnone. by apply Hnone in Hin.
Qed.

(** * The pass-through methods *)

(** X7.  A pass-through method is transparent to the coordinator: put
    anywhere in a run it changes neither the node the run ends in nor the
    calls the other inputs make, and what it adds is, while the node is not
    closing, the one call on the client it stands for, whether or not the
    node is connected or any node is registered. *)
Theorem facade_transparent inputs1 c inputs2 node :
  after (run (inputs1 ++ Facade c :: inputs2)) node
  = after (run (inputs1 ++ inputs2)) node
  ∧ calls (run (inputs1 ++ Facade c :: inputs2)) node
    = calls (run inputs1) node
        ++ calls (facade c) (after (run inputs1) node)
        ++ calls (run inputs2) (after (run inputs1) node)
  ∧ calls (run (inputs1 ++ inputs2)) node
    = calls (run inputs1) node
        ++ calls (run inputs2) (after (run inputs1) node)
  ∧ (_closing (after (run inputs1) node) = false →
       calls (facade c) (after (run inputs1) node) = [ClientCall c]).
Proof.
  split_and!.
  - by rewrite !after_run_app, after_run_cons, after_step.
  - by rewrite calls_run_app, calls_run_cons, after_step.
  - apply calls_run_app.
  - intros Hcl. unfold calls. rewrite facade_eq, Hcl. by destruct c.
Qed.

(** X8.  Once the node's close handler has run, [removeEventCallback]
    calls nothing; every other pass-through method, [addEventCallback]
    included, still makes its call on the client. *)
Theorem facade_after_teardown node inputs1 d inputs2 c :
  calls (facade c) (after (run (inputs1 ++ Teardown d :: inputs2)) node)
  = match c with
    | RemoveEventCallback _ _ => []
    | _ => [ClientCall c]
    end.
Proof.
  unfold calls. rewrite facade_eq. cbn [snd].
  rewrite after_run_app, after_run_cons, run_closing_latch; [done|].
  by rewrite after_step.
Qed.

(** * Registering around a teardown or a disconnect *)

(** X9.  The closing flag does not guard [_connect]: the calls of a
    registration are the same after the close handler has run as before
    it, and on a node that is idle with an empty table a registration
    after the close handler calls the client's [connect]. *)
Theorem teardown_does_not_stop_connect node d u :
  calls (registerUserNode u) (after (node_close d) node)
  = calls (registerUserNode u) node
  ∧ (connected node = false → _connecting node = false → _users node = ∅ →
       calls (run [Teardown d; Register u]) node
       = [ClientDestroy; Call d] ++ connect_calls).
Proof.
  assert (calls (registerUserNode u) (after (node_close d) node)
          = calls (registerUserNode u) node) as Heq.
  { unfold calls. rewrite !registerUserNode_cases.
    change (node_close d) with (step (Teardown d)). rewrite after_step.
    unfold connects. cbn [connected _connecting _users].
    by repeat case_match. }
  split; [done|]. intros Hc Hcg Hus.
  rewrite calls_run_cons. cbn [step].
  change (calls (run [Register u]) ?n)
    with (calls (registerUserNode u) n ++ []).
  rewrite app_nil_r, Heq. unfold calls.
  rewrite node_close_eq, registerUserNode_cases, Hc. cbn [snd].
  unfold connects. rewrite Hc, Hcg, Hus, insert_empty, map_size_singleton.
  done.
Qed.

Lemma size_insert_1 (m : gmap string UserNode) k v :
  size (<[k := v]> m) = 1 ↔ delete k m = ∅.
Proof.
  rewrite <- insert_delete_eq, map_size_insert_None by apply lookup_delete_eq.
  rewrite <- map_size_empty_iff. lia.
Qed.

(** X12.  A registration calls the client's [connect] exactly when the
    node is neither connected nor connecting and the table holds no other
    id: it is empty, or holds the registered id alone. *)
Theorem connect_iff u node :
  ClientConnect ∈ calls (registerUserNode u) node ↔
  connected node = false ∧ _connecting node = false
  ∧ (_users node = ∅ ∨ ∃ v, _users node = {[id u := v]}).
Proof.
  rewrite <- delete_empty_iff, <- (size_insert_1 _ _ u).
  unfold calls. rewrite registerUserNode_cases. unfold connects.
  destruct (Nat.eqb_spec (size (<[id u := u]> (_users node))) 1) as [Hs|Hs],
    (connected node), (_connecting node); cbn [andb negb snd];
    split; try (by intros (? & ? & ?)); try (intros Hin; absurd_elem Hin).
  - by intros _.
  - intros _. left.
Qed.

(** X10.  While the node is connected or connecting and not closing,
    unregistering the last node and registering a node right after calls
    the client's [disconnect] and does not call [connect] again: the new
    node is in the table, the flags are as before, and the client has
    been told to disconnect. *)
Theorem churn_while_busy node cc u d v :
  connected node = true ∨ _connecting node = true →
  _closing node = false →
  delete (id u) (_users node) = ∅ →
  calls (run [Unregister cc u d; Register v]) node
  = (if cc then [ClientDisconnect (Some d)]
     else [ClientDisconnect None; Call d])
  ∧ connected (after (run [Unregister cc u d; Register v]) node)
    = connected node
  ∧ _connecting (after (run [Unregister cc u d; Register v]) node)
    = _connecting node
  ∧ _users (after (run [Unregister cc u d; Register v]) node)
    = {[id v := v]}.
Proof.
  intros Hbusy Hcl Hempty.
  assert (connects v (after (step (Unregister cc u d)) node) = false) as Hno.
  { unfold connects. rewrite after_step.
    cbn [after set_users fst snd connected _connecting].
    destruct Hbusy as [-> | ->]; by rewrite ?andb_false_r. }
  rewrite !calls_run_cons, !after_run_cons, after_run_nil.
  rewrite (after_step (Register v)), Hno.
  split_and!.
  - cbn [step]. unfold calls at 2. rewrite registerUserNode_cases.
    cbn [step] in Hno. rewrite Hno. cbn [snd].
    unfold calls. rewrite unregisterUserNode_eq. cbn [snd].
    change (_users (after _ node)) with (delete (id u) (_users node)).
    rewrite Hcl, Hempty, map_size_empty. cbn.
    destruct cc; reflexivity.
  - by rewrite after_step.
  - by rewrite after_step.
  - rewrite after_step.
    change (_users _) with (<[id v := v]> (delete (id u) (_users node))).
    by rewrite Hempty, insert_empty.
Qed.

Lemma churn_while_busy_witness :
  calls (run [Unregister true alice 5; Register bob])
        (after (run [Register alice; Emits EvConnect]) init)
  = [ClientDisconnect (Some 5)]
  ∧ connected (after (run [Unregister true alice 5; Register bob])
                 (after (run [Register alice; Emits EvConnect]) init))
    = connected (after (run [Register alice; Emits EvConnect]) init)
  ∧ _connecting (after (run [Unregister true alice 5; Register bob])
                   (after (run [Register alice; Emits EvConnect]) init))
    = _connecting (after (run [Register alice; Emits EvConnect]) init)
  ∧ _users (after (run [Unregister true alice 5; Register bob])
              (after (run [Register alice; Emits EvConnect]) init))
    = {[id bob := bob]}.
Proof.
  apply (churn_while_busy
           (after (run [Register alice; Emits EvConnect]) init)
           true alice 5 bob).
  - left. vm_compute. reflexivity.
  - vm_compute. reflexivity.
  - vm_compute. reflexivity.
Defined.

(** * Configuration values *)

(** [convertValueToNumber] returns a string only when the value is
    undefined and the default is that string, and undefined only when both
    are undefined; a value that is not undefined makes the default
    irrelevant; with a number as default, a value that is undefined, a
    string or a number gives a number. *)
Lemma convertValueToNumber_typeof {Num} (Number : string → Num)
    (value defaultValue : JsValue Num) :
  (∀ s, convertValueToNumber Number value defaultValue = JsString s →
        value = JsUndefined ∧ defaultValue = JsString s)
  ∧ (convertValueToNumber Number value defaultValue = JsUndefined →
       value = JsUndefined ∧ defaultValue = JsUndefined)
  ∧ (value ≠ JsUndefined →
       ∀ other, convertValueToNumber Number value other
                = convertValueToNumber Number value defaultValue)
  ∧ (is_number defaultValue = true → documented value = true →
       is_number (convertValueToNumber Number value defaultValue) = true).
Proof.
  destruct value; cbn; split_and!; try done; by intros.
Qed.



(** * Registering the same id a second time *)

Lemma present_step k i node :
  is_Some (_users node !! k) →
  unregisters k i = false →
  is_Some (_users (after (step i) node) !! k).
Proof.
  intros Hk Hun. rewrite users_after_step.
  destruct i as [w|cc w d|d|ev|c]; try done.
  - apply lookup_insert_is_Some. destruct (decide (id w = k)); auto.
  - cbn in Hun. apply bool_decide_eq_false in Hun.
    apply lookup_delete_is_Some. by split.
Qed.

Lemma present_run k inputs node :
  is_Some (_users node !! k) →
  existsb (unregisters k) inputs = false →
  is_Some (_users (after (run inputs) node) !! k).
Proof.
  revert node. induction inputs as [|i inputs IH]; intros node Hk Hno.
  - done.
  - cbn [existsb] in Hno. apply orb_false_iff in Hno as [Hi Hno].
    rewrite after_run_cons. apply IH; [|done]. by apply present_step.
Qed.

Lemma run_busy_kept inputs node :
  connected node || _connecting node = true →
  Emits EvClose ∉ inputs →
  connected (after (run inputs) node) || _connecting (after (run inputs) node)
  = true.
Proof.
  revert node. induction inputs as [|i inputs IH]; intros node Hbusy Hno.
  - done.
  - apply not_elem_of_cons in Hno as [Hi Hno].
    rewrite after_run_cons. apply IH; [|done].
    by apply step_busy_kept.
Qed.

(** C3, as amended.  When a node is registered and then, with no
    unregistration of its id in between and whatever else happens in
    between, a node with the same id is registered, the second registration
    calls the client's [connect] exactly when it finds the node neither
    connected nor connecting and its id alone in the table; in every other
    case it does not.  When the first registration called [connect] too,
    a ['connect'] emission and a ['close'] emission have arrived in
    between. *)
Theorem reregister_connect_iff node u inputs u' :
  id u' = id u →
  existsb (unregisters (id u)) inputs = false →
  let node' := after (run inputs) (after (registerUserNode u) node) in
  (ClientConnect ∈ calls (registerUserNode u') node' ↔
     connected node' = false ∧ _connecting node' = false
     ∧ ∃ v, _users node' = {[id u := v]})
  ∧ (ClientConnect ∈ calls (registerUserNode u) node →
     ClientConnect ∈ calls (registerUserNode u') node' →
     Emits EvConnect ∈ inputs ∧ Emits EvClose ∈ inputs).
Proof.
  intros Hid Hno. cbv zeta.
  set (node' := after (run inputs) (after (registerUserNode u) node)).
  assert (is_Some (_users node' !! id u)) as [w Hw].
  { apply present_run; [|done].
    change (registerUserNode u) with (step (Register u)).
    rewrite users_after_step, lookup_insert_eq. by eexists. }
  assert (ClientConnect ∈ calls (registerUserNode u') node' ↔
          connects u' node' = true) as Hcalls.
  { unfold calls. rewrite registerUserNode_cases.
    destruct (connects u' node'); split; try done.
    - by intros _; left.
    - intros Hin. by apply elem_of_nil in Hin. }
  split.
  - rewrite Hcalls. unfold connects. rewrite !andb_true_iff, !negb_true_iff.
    rewrite Nat.eqb_eq, size_insert_1, Hid, delete_empty_iff. split.
    + intros [[[Hempty|Hone] Hc] Hcg]; [|done].
      by rewrite Hempty, lookup_empty in Hw.
    + intros (Hc & Hcg & Hone). split_and!; [by right|done..].
  - intros Hfirst Hsecond.
    apply (connect_called (Register u)) in Hfirst as (u0 & [= <-] & Hconn).
    assert (_connecting (after (registerUserNode u) node) = true) as Hcg.
    { unfold after. rewrite registerUserNode_cases. by rewrite Hconn. }
    apply Hcalls in Hsecond. unfold connects in Hsecond.
    apply andb_true_iff in Hsecond as [[_ Hc]%andb_true_iff Hcg'].
    apply negb_true_iff in Hc, Hcg'. split.
    + destruct (decide (Emits EvConnect ∈ inputs)) as [|Hnone]; [done|].
      pose proof (run_connecting_kept inputs _ Hcg Hnone) as Hkept.
      fold node' in Hkept. congruence.
    + destruct (decide (Emits EvClose ∈ inputs)) as [|Hnone]; [done|].
      pose proof (run_busy_kept inputs (after (registerUserNode u) node)
                    ltac:(by rewrite Hcg, orb_true_r) Hnone) as Hkept.
      fold node' in Hkept. rewrite Hc, Hcg' in Hkept. done.
Qed.

Lemma reregister_connect_iff_witness :
  (ClientConnect
     ∈ calls (registerUserNode alice)
             (after (run [Emits EvConnect; Emits EvClose; Emits EvConnect;
                          Register bob; Unregister true bob 3])
                    (after (registerUserNode alice) init)) ↔
     connected
       (after (run [Emits EvConnect; Emits EvClose; Emits EvConnect;
                    Register bob; Unregister true bob 3])
              (after (registerUserNode alice) init)) = false
     ∧ _connecting
         (after (run [Emits EvConnect; Emits EvClose; Emits EvConnect;
                      Register bob; Unregister true bob 3])
                (after (registerUserNode alice) init)) = false
     ∧ ∃ v, _users
              (after (run [Emits EvConnect; Emits EvClose; Emits EvConnect;
                           Register bob; Unregister true bob 3])
                     (after (registerUserNode alice) init))
            = {[id alice := v]})
  ∧ connected
      (after (run [Emits EvConnect; Emits EvClose; Emits EvConnect;
                   Register bob; Unregister true bob 3])
             (after (registerUserNode alice) init)) = true.
Proof.
  split; [|vm_compute; reflexivity].
  apply (reregister_connect_iff init alice
           [Emits EvConnect; Emits EvClose; Emits EvConnect;
            Register bob; Unregister true bob 3] alice).
  - reflexivity.
  - vm_compute. reflexivity.
Defined.
